(** * Fluxion: store core, derived selectors and snapshot manager

    A shallow embedding of the store update/subscription core
    ([createStore]), the dependency-memoised selectors ([derived],
    [createSelector]) and the time-travel manager
    ([createSnapshotManager]) of the Fluxion state container, together
    with the properties its specification states about them. *)

From stdpp Require Import gmap strings list fin_maps pretty.

Open Scope Z_scope.

(** ** JavaScript values and the object heap *)

(** Object references.  The heap only grows, and a reference is the index
    at which its object was allocated. *)
Definition loc := nat.

(** The values a state field, an update description or a selector result
    can hold.  Numbers are modelled as integers. *)
Inductive val :=
  | VUndef
  | VNull
  | VBool (b : bool)
  | VNum (n : Z)
  | VStr (s : string)
  | VRef (l : loc).

Global Instance val_eq_dec : EqDecision val.
Proof. solve_decision. Defined.

(** A plain object: its own enumerable properties. *)
Abbreviation obj := (gmap string val).

(** The heap of plain objects. *)
Abbreviation heap := (list obj).

(** [alloc h o] allocates [o] at a location not used by any object of [h]. *)
Definition alloc (h : heap) (o : obj) : heap * loc := (h ++ [o], length h).

(** Own enumerable string-keyed properties of a string primitive: one per
    character, keyed by its decimal index. *)
Fixpoint str_props (i : nat) (s : string) : obj :=
  match s with
  | EmptyString => ∅
  | String c s' => <[pretty i := VStr (String c EmptyString)]> (str_props (S i) s')
  end.

(** What an object spread [{ ...v }] copies out of [v]: the own properties of
    an object, the indexed characters of a string, and nothing for
    [null], [undefined], booleans and numbers. *)
Definition own_props (h : heap) (v : val) : obj :=
  match v with
  | VRef l => default ∅ (h !! l)
  | VStr s => str_props 0 s
  | _ => ∅
  end.

(** [{ ...a, ...b }]: the properties of [b] win over those of [a]. *)
Definition spread2 (h : heap) (a b : val) : obj := own_props h b ∪ own_props h a.

(** [Object.is] on the modelled values. *)
Definition Object_is (a b : val) : bool := bool_decide (a = b).

(** Truthiness, as tested by [&&] and [if]. *)
Definition truthy (v : val) : bool :=
  match v with
  | VUndef | VNull => false
  | VBool b => b
  | VNum n => negb (n =? 0)
  | VStr s => negb (bool_decide (s = EmptyString))
  | VRef _ => true
  end.

(** What a call that may throw yields. *)
Inductive exn :=
  | ReferenceError (name : string)
  | Thrown (v : val).

Inductive completion (A : Type) :=
  | Normal (a : A)
  | Throw (e : exn).
Arguments Normal {A} a.
Arguments Throw {A} e.

(** ** Store core ([createStore]) *)

(** A listener [(state, prevState) => void].  Listeners are function
    objects: the store holds references to them, and [funs] below maps a
    reference to the behaviour of the function it denotes.  A listener
    reads the heap and either returns ([None]) or throws; listeners that
    call back into the store while they are being notified are not
    modelled. *)
Definition fn_ref := nat.
Definition Listener := heap -> loc -> loc -> option exn.

(** A middleware [(nextState, prevState, dispatch) => T | void].  It returns
    nothing, an object that already exists (its [nextState], its
    [prevState], ...), an object it has just built, or it throws.  The
    [dispatch] argument only serves to schedule a later, independent
    [setState]; it plays no part in the call itself.  A middleware is
    described by what it answers in a call; variables it keeps between
    calls (the clock and timer of the throttle middleware) are not
    modelled. *)
Inductive mw_result :=
  | MwUndefined
  | MwReturn (l : loc)
  | MwFresh (o : obj)
  | MwThrow (e : exn).
Definition Middleware := heap -> loc -> loc -> mw_result.

(** A write of a recipe to a field of the draft: the assignment of a value
    that exists already, or a [delete]. *)
Inductive write :=
  | WSet (key : string) (v : val)
  | WDelete (key : string).

(** What a function updater does with the draft immer hands to it: nothing,
    write to its fields (the [writes], in order) and return nothing, return
    an object (existing or just built) without touching the draft, or
    throw. *)
Inductive recipe_result :=
  | RUntouched
  | RMutated (writes : list write)
  | RReturn (l : loc)
  | RFresh (o : obj)
  | RThrow (e : exn).

(** The argument of [setState]: [typeof updater === 'function'] or anything
    else. *)
Inductive StateUpdater :=
  | UFun (recipe : heap -> loc -> recipe_result)
  | UVal (v : val).

(** One write to immer's draft of the plain object [base]; the draft is its
    [modified] flag and its contents.  While the draft is not modified, the
    assignment of the value the field already holds is ignored; any other
    assignment marks the draft modified, and so does the [delete] of a
    field [base] has.  A modified draft stays modified, whatever is
    written later. *)
Definition draft_write (base : obj) (draft : bool * obj) (w : write) : bool * obj :=
  let '(modified, copy) := draft in
  match w with
  | WSet key v =>
    if negb modified && bool_decide (base !! key = Some v) then (modified, copy)
    else (true, <[key := v]> copy)
  | WDelete key =>
    (modified || bool_decide (is_Some (base !! key)), delete key copy)
  end.

(** The draft of [base] after the [writes]. *)
Definition write_all (base : obj) (writes : list write) : bool * obj :=
  foldl (draft_write base) (false, base) writes.

(** immer's [produce(base, recipe)]: the base itself when the draft was left
    unmodified, a new object with the draft's contents when it was
    modified, and the returned value when the recipe returns one.  The
    base is never written to. *)
Definition produce (h : heap) (base : loc) (recipe : heap -> loc -> recipe_result)
  : heap * completion loc :=
  match recipe h base with
  | RUntouched => (h, Normal base)
  | RMutated writes =>
    let '(modified, copy) := write_all (own_props h (VRef base)) writes in
    if modified then let '(h', l) := alloc h copy in (h', Normal l)
    else (h, Normal base)
  | RReturn l => (h, Normal l)
  | RFresh o => let '(h', l) := alloc h o in (h', Normal l)
  | RThrow e => (h, Throw e)
  end.

(** The closure variables of [createStore]: [state], the [listeners] set (a
    JavaScript [Set] iterates in insertion order and holds a reference at
    most once) and the [middleware] array of the options. *)
Record Store := {
  state : loc;
  listeners : list fn_ref;
  middleware : list Middleware
}.

(** [Set.prototype.add] and [Set.prototype.delete]. *)
Definition set_add (x : fn_ref) (s : list fn_ref) : list fn_ref :=
  if decide (x ∈ s) then s else s ++ [x].
Definition set_delete (x : fn_ref) (s : list fn_ref) : list fn_ref :=
  filter (λ y, y ≠ x) s.

(** One middleware invocation and one listener invocation, as observed. *)
Record MwCall := { mw_index : nat; mw_next : loc; mw_prev : loc }.
Record Notification := { n_listener : fn_ref; n_state : loc; n_prev : loc }.

Global Instance MwCall_eq_dec : EqDecision MwCall.
Proof. solve_decision. Defined.
Global Instance Notification_eq_dec : EqDecision Notification.
Proof. solve_decision. Defined.

(** [createStore(initialState, { middleware })]: [state = { ...initialState }].
    The [devtools] and [name] options only concern the connection to the
    browser's DevTools extension. *)
Definition createStore (h : heap) (initialState : loc) (mws : list Middleware)
  : heap * Store :=
  let '(h', l) := alloc h (own_props h (VRef initialState)) in
  (h', {| state := l; listeners := []; middleware := mws |}).

Definition getState (st : Store) : loc := state st.

(** The loop of [applyMiddleware], from the middleware at position [i] on. *)
Fixpoint applyMiddleware_from (i : nat) (mws : list Middleware) (h : heap)
    (result prevState : loc) : heap * list MwCall * completion loc :=
  match mws with
  | [] => (h, [], Normal result)
  | middlewareFn :: rest =>
    let call := {| mw_index := i; mw_next := result; mw_prev := prevState |} in
    let continue h' result' :=
      let '(h'', calls, r) := applyMiddleware_from (S i) rest h' result' prevState in
      (h'', call :: calls, r) in
    match middlewareFn h result prevState with
    | MwUndefined => continue h result
    | MwReturn l => continue h l
    | MwFresh o => let '(h', l) := alloc h o in continue h' l
    | MwThrow e => (h, [call], Throw e)
    end
  end.

Definition applyMiddleware (mws : list Middleware) (h : heap) (nextState prevState : loc)
  : heap * list MwCall * completion loc :=
  applyMiddleware_from 0 mws h nextState prevState.

(** [listeners.forEach((listener) => listener(state, prevState))]: a throwing
    listener ends the iteration, and its exception leaves [forEach]. *)
Fixpoint notify (funs : fn_ref -> Listener) (h : heap) (ls : list fn_ref)
    (s prevState : loc) : list Notification * option exn :=
  match ls with
  | [] => ([], None)
  | listener :: rest =>
    let n := {| n_listener := listener; n_state := s; n_prev := prevState |} in
    match funs listener h s prevState with
    | Some e => ([n], Some e)
    | None => let '(ns, r) := notify funs h rest s prevState in (n :: ns, r)
    end
  end.

(** What one [setState] call leaves behind: the heap, the store, the
    [prevState] copy it made, whether it reached [state = nextState], the
    middleware and listener invocations it made, and the exception that
    reached its caller, if any. *)
Record Outcome := {
  o_heap : heap;
  o_store : Store;
  o_prev : loc;
  o_committed : bool;
  o_calls : list MwCall;
  o_notified : list Notification;
  o_thrown : option exn
}.

(** The candidate next state computed from the updater: immer's [produce]
    for a function, [{ ...state, ...updater }] for anything else. *)
Definition candidate (h : heap) (st : Store) (updater : StateUpdater)
  : heap * completion loc :=
  match updater with
  | UFun recipe => produce h (state st) recipe
  | UVal v =>
    let '(h', l) := alloc h (spread2 h (VRef (state st)) v) in (h', Normal l)
  end.

(** [setState(updater)].  The DevTools block at its end only forwards the
    committed state to a browser extension and is left out. *)
Definition setState (funs : fn_ref -> Listener) (h : heap) (st : Store)
    (updater : StateUpdater) : Outcome :=
  let '(h1, prevState) := alloc h (own_props h (VRef (state st))) in
  let '(h2, c) := candidate h1 st updater in
  match c with
  | Throw e =>
    {| o_heap := h2; o_store := st; o_prev := prevState; o_committed := false;
       o_calls := []; o_notified := []; o_thrown := Some e |}
  | Normal nextState =>
    let '(h3, calls, piped) :=
      if bool_decide (0 < length (middleware st))%nat
      then applyMiddleware (middleware st) h2 nextState prevState
      else (h2, [], Normal nextState) in
    match piped with
    | Throw e =>
      {| o_heap := h3; o_store := st; o_prev := prevState; o_committed := false;
         o_calls := calls; o_notified := []; o_thrown := Some e |}
    | Normal nextState' =>
      let st' := {| state := nextState'; listeners := listeners st;
                    middleware := middleware st |} in
      let '(ns, r) := notify funs h3 (listeners st') (state st') prevState in
      {| o_heap := h3; o_store := st'; o_prev := prevState; o_committed := true;
         o_calls := calls; o_notified := ns; o_thrown := r |}
    end
  end.

(** [subscribe(listener)] and the [unsubscribe] of the subscription it returns. *)
Definition subscribe (listener : fn_ref) (st : Store) : Store :=
  {| state := state st; listeners := set_add listener (listeners st);
     middleware := middleware st |}.
Definition unsubscribe (listener : fn_ref) (st : Store) : Store :=
  {| state := state st; listeners := set_delete listener (listeners st);
     middleware := middleware st |}.

(** [use(selector)]. *)
Definition use {U} (selector : heap -> val -> U) (h : heap) (st : Store) : U :=
  selector h (VRef (state st)).

(** [destroy()]: [listeners.clear()]. *)
Definition destroy (st : Store) : Store :=
  {| state := state st; listeners := []; middleware := middleware st |}.

(** The invocation of listener [f] with [(s, p)]. *)
Definition notification (s p : loc) (f : fn_ref) : Notification :=
  {| n_listener := f; n_state := s; n_prev := p |}.

(** Registering the listeners [ls], in that order, through [subscribe]. *)
Definition subscribe_all (ls : list fn_ref) (st : Store) : Store :=
  foldl (λ s listener, subscribe listener s) st ls.

(** ** Memoised selectors *)

(** A selector [(state) => R], reading the heap. *)
Definition Selector := heap -> val -> val.

(** [typeof v === 'object' && v !== null] *)
Definition is_object (v : val) : bool :=
  match v with VRef _ => true | _ => false end.

(** [o[key]] *)
Definition get (o : obj) (key : string) : val := default VUndef (o !! key).

(** [v !== undefined] *)
Definition defined (v : val) : bool := negb (bool_decide (v = VUndef)).

(** [shallowEqual] (selector.ts). *)
Definition shallowEqual (h : heap) (a b : val) : bool :=
  if Object_is a b then true
  else if negb (is_object a) || negb (is_object b) then false
  else
    let keysA := (map_to_list (own_props h a)).*1 in
    let keysB := (map_to_list (own_props h b)).*1 in
    if negb (length keysA =? length keysB)%nat then false
    else
      forallb (λ key,
        bool_decide (is_Some (own_props h b !! key))
        && Object_is (get (own_props h a) key) (get (own_props h b) key)) keysA.

(** *** [derived] *)

Record DerivedOptions := {
  equals : option (heap -> val -> val -> bool);
  deps : option (list Selector)
}.

(** The variables the selector returned by [derived] closes over. *)
Record DerivedCache := {
  d_lastState : val;
  d_lastResult : val;
  d_lastDepsValues : list val
}.

Definition derived_init : DerivedCache :=
  {| d_lastState := VUndef; d_lastResult := VUndef; d_lastDepsValues := [] |}.

(** [depsValues.some((value, i) => !equals(value, lastDepsValues[i]))] *)
Definition some_dep_differs (eq : val -> val -> bool) (depsValues lastDepsValues : list val)
  : bool :=
  existsb (λ '(i, value), negb (eq value (nth i lastDepsValues VUndef)))
    (imap pair depsValues).

(** One call of the selector [derived(compute, options)] on [state], from the
    cache [c]: the cache it leaves, the value it returns, and whether it
    invoked [compute]. *)
Definition derived_call (compute : Selector) (options : DerivedOptions)
    (c : DerivedCache) (h : heap) (state : val) : DerivedCache * val * bool :=
  let equals := default shallowEqual (equals options) in
  match deps options with
  | Some ((_ :: _) as deps) =>
    let depsValues := (λ dep : Selector, dep h state) <$> deps in
    let depsChanged :=
      bool_decide (length (d_lastDepsValues c) = 0%nat)
      || some_dep_differs (equals h) depsValues (d_lastDepsValues c) in
    if negb depsChanged && defined (d_lastResult c) then (c, d_lastResult c, false)
    else
      let result := compute h state in
      ({| d_lastState := d_lastState c; d_lastResult := result;
          d_lastDepsValues := depsValues |}, result, true)
  | _ =>
    if bool_decide (d_lastState c = state) && defined (d_lastResult c)
    then (c, d_lastResult c, false)
    else
      let result := compute h state in
      ({| d_lastState := state; d_lastResult := result;
          d_lastDepsValues := d_lastDepsValues c |}, result, true)
  end.

(** *** [createSelector] *)

(** The variables the selector returned by [createSelector] closes over;
    [lastDeps] starts as the [deps] array of the options. *)
Record SelectorCache := {
  lastState : val;
  lastResult : val;
  lastDeps : list val
}.

Definition createSelector_init (deps : list val) : SelectorCache :=
  {| lastState := VUndef; lastResult := VUndef; lastDeps := deps |}.

Definition depsChanged (lastDeps newDeps : list val) : bool :=
  if negb (length lastDeps =? length newDeps)%nat then true
  else existsb (λ '(i, d), negb (Object_is (nth i lastDeps VUndef) d)) (imap pair newDeps).

(** One call of the selector [createSelector(selectorFn, { equalityFn, deps })].
    Its body calls [selector(state)], a name that neither the function nor
    the module binds; [selector] is what that name denotes where the code
    runs, [None] when nothing does. *)
Definition createSelector_call (selector : option Selector) (selectorFn : Selector)
    (equalityFn : heap -> val -> val -> bool) (deps : list val)
    (c : SelectorCache) (h : heap) (state : val) : SelectorCache * completion val :=
  if truthy (lastState c) && defined (lastResult c)
     && (Object_is state (lastState c) || negb (depsChanged (lastDeps c) deps))
  then (c, Normal (lastResult c))
  else
    match selector with
    | None => (c, Throw (ReferenceError "selector"))
    | Some f =>
      let result := f h state in
      if defined (lastResult c) && equalityFn h (lastResult c) result
      then (c, Normal (lastResult c))
      else ({| lastState := state; lastResult := result; lastDeps := deps |},
            Normal result)
    end.

(** A selector reading one top-level field of the state. *)
Definition field (key : string) : Selector := λ h state, get (own_props h state) key.

(** ** Snapshot manager ([createSnapshotManager]) *)

Record Snapshot := {
  snap_state : loc;
  timestamp : Z;
  description : option string
}.

(** The closure variables of [createSnapshotManager]: the [snapshots] array,
    [currentIndex], and [maxSnapshots] from the options.  The store the
    manager is attached to is passed to each operation. *)
Record SnapshotManager := {
  snapshots : list Snapshot;
  currentIndex : Z;
  maxSnapshots : Z
}.

(** [arr.slice(0, end)]: a negative [end] counts from the end of the array. *)
Definition slice0 {A} (arr : list A) (end_ : Z) : list A :=
  let len := Z.of_nat (length arr) in
  let k := if end_ <? 0 then Z.max (len + end_) 0 else Z.min end_ len in
  take (Z.to_nat k) arr.

(** [takeSnapshot(description)] at time [now]. *)
Definition takeSnapshot (now : Z) (description : option string) (h : heap) (st : Store)
    (m : SnapshotManager) : heap * SnapshotManager :=
  let '(h', l) := alloc h (own_props h (VRef (getState st))) in
  let snapshot := {| snap_state := l; timestamp := now; description := description |} in
  let kept :=
    if currentIndex m <? Z.of_nat (length (snapshots m)) - 1
    then slice0 (snapshots m) (currentIndex m + 1)
    else snapshots m in
  let pushed := kept ++ [snapshot] in
  let index := Z.of_nat (length pushed) - 1 in
  if maxSnapshots m <? Z.of_nat (length pushed)
  then (h', {| snapshots := drop 1 pushed; currentIndex := index - 1;
               maxSnapshots := maxSnapshots m |})
  else (h', {| snapshots := pushed; currentIndex := index;
               maxSnapshots := maxSnapshots m |}).

(** The updater [() => snapshots[index].state] of [applySnapshot]. *)
Definition restore (snaps : list Snapshot) (index : Z) : StateUpdater :=
  UFun (λ _ _,
    match snaps !! Z.to_nat index with
    | Some s => RReturn (snap_state s)
    | None => RThrow (Thrown (VStr "TypeError"))
    end).

(** [applySnapshot(index)]: the manager it leaves and the outcome of the
    [setState] call it makes, if it makes one. *)
Definition applySnapshot (funs : fn_ref -> Listener) (index : Z) (h : heap)
    (st : Store) (m : SnapshotManager) : SnapshotManager * option Outcome :=
  if (0 <=? index) && (index <? Z.of_nat (length (snapshots m)))
  then ({| snapshots := snapshots m; currentIndex := index;
           maxSnapshots := maxSnapshots m |},
        Some (setState funs h st (restore (snapshots m) index)))
  else (m, None).

Definition clearSnapshots (m : SnapshotManager) : SnapshotManager :=
  {| snapshots := []; currentIndex := -1; maxSnapshots := maxSnapshots m |}.

Definition canUndo (m : SnapshotManager) : bool := 0 <? currentIndex m.
Definition canRedo (m : SnapshotManager) : bool :=
  currentIndex m <? Z.of_nat (length (snapshots m)) - 1.

Definition undo (funs : fn_ref -> Listener) (h : heap) (st : Store)
    (m : SnapshotManager) : SnapshotManager * option Outcome :=
  if canUndo m then applySnapshot funs (currentIndex m - 1) h st m else (m, None).

Definition redo (funs : fn_ref -> Listener) (h : heap) (st : Store)
    (m : SnapshotManager) : SnapshotManager * option Outcome :=
  if canRedo m then applySnapshot funs (currentIndex m + 1) h st m else (m, None).

(** [createSnapshotManager(store, { maxSnapshots })] at time [now]: it takes
    the initial snapshot.  The auto-snapshot timer, when enabled, calls
    [takeSnapshot('Auto snapshot')] on later turns. *)
Definition createSnapshotManager (now : Z) (maxSnapshots : Z) (h : heap) (st : Store)
  : heap * SnapshotManager :=
  takeSnapshot now (Some "Initial state") h st
    {| snapshots := []; currentIndex := -1; maxSnapshots := maxSnapshots |}.

(** A store with its snapshot manager, and the operations a program performs
    on the pair. *)
Record World := {
  w_heap : heap;
  w_store : Store;
  w_manager : SnapshotManager
}.

Inductive Op :=
  | TakeSnapshot (now : Z) (description : option string)
  | ApplySnapshot (index : Z)
  | Undo
  | Redo
  | ClearSnapshots
  | SetState (updater : StateUpdater).

(** The heap and store after an operation that may have called [setState]. *)
Definition settled (w : World) (r : SnapshotManager * option Outcome) : World :=
  match r.2 with
  | Some out => {| w_heap := o_heap out; w_store := o_store out; w_manager := r.1 |}
  | None => {| w_heap := w_heap w; w_store := w_store w; w_manager := r.1 |}
  end.

Definition step (funs : fn_ref -> Listener) (w : World) (op : Op) : World :=
  match op with
  | TakeSnapshot now description =>
    let '(h', m') := takeSnapshot now description (w_heap w) (w_store w) (w_manager w) in
    {| w_heap := h'; w_store := w_store w; w_manager := m' |}
  | ApplySnapshot index =>
    settled w (applySnapshot funs index (w_heap w) (w_store w) (w_manager w))
  | Undo => settled w (undo funs (w_heap w) (w_store w) (w_manager w))
  | Redo => settled w (redo funs (w_heap w) (w_store w) (w_manager w))
  | ClearSnapshots =>
    {| w_heap := w_heap w; w_store := w_store w;
       w_manager := clearSnapshots (w_manager w) |}
  | SetState updater =>
    let out := setState funs (w_heap w) (w_store w) updater in
    {| w_heap := o_heap out; w_store := o_store out; w_manager := w_manager w |}
  end.

Definition run (funs : fn_ref -> Listener) (w : World) (ops : list Op) : World :=
  foldl (step funs) w ops.

(** A store with a freshly created snapshot manager. *)
Definition attach (now : Z) (maxSnapshots : Z) (h : heap) (st : Store) : World :=
  let '(h', m) := createSnapshotManager now maxSnapshots h st in
  {| w_heap := h'; w_store := st; w_manager := m |}.

(** The properties of the current state. *)
Definition current (w : World) : obj := own_props (w_heap w) (VRef (getState (w_store w))).

(** ** Predicates used in the statements *)

(** A middleware that leaves the proposed state alone: it returns nothing, or
    the [nextState] it was given (as the logger and persistence middleware do). *)
Definition passthrough (m : Middleware) : Prop :=
  ∀ h n p, m h n p = MwUndefined ∨ m h n p = MwReturn n.

(** The heap only grows. *)
Definition extends (h h' : heap) : Prop := ∃ ext, h' = h ++ ext.

(** What a middleware hands on to the next one, in the words of the
    specification: the [nextState] it was given when it returns nothing,
    what it returns otherwise (an object that exists, or one it has just
    built); nothing when it throws. *)
Definition handed_on (m : Middleware) (h : heap) (nextState prevState : loc)
  : option (heap * loc) :=
  match m h nextState prevState with
  | MwUndefined => Some (h, nextState)
  | MwReturn l => Some (h, l)
  | MwFresh o => Some (h ++ [o], length h)
  | MwThrow _ => None
  end.

(** The cumulative output of the middleware [ms], starting from the
    candidate state [cand]; nothing when one of them throws. *)
Definition cumulative_output (ms : list Middleware) (h : heap) (cand prevState : loc)
  : option (heap * loc) :=
  foldl (λ acc m, match acc with
                  | Some (h', n) => handed_on m h' n prevState
                  | None => None
                  end)
    (Some (h, cand)) ms.

(** The invocation the specification prescribes for the middleware at
    position [i]: on the cumulative output of those registered before it,
    and on [prevState]. *)
Definition prescribed_call (ms : list Middleware) (h : heap) (cand prevState : loc)
    (i : nat) : option MwCall :=
  match cumulative_output (take i ms) h cand prevState with
  | Some (_, n) => Some {| mw_index := i; mw_next := n; mw_prev := prevState |}
  | None => None
  end.

(** The prescribed invocations of the first [k] middleware, in registration
    order. *)
Definition prescribed_calls (k : nat) (ms : list Middleware) (h : heap)
    (cand prevState : loc) : list MwCall :=
  omap (prescribed_call ms h cand prevState) (seq 0 k).

(** [setState(u)] runs the pipeline as prescribed from the candidate [cand]
    on the heap [h2]: when no middleware throws, every registered
    middleware is invoked, once, as prescribed, and the cumulative output
    of all of them is committed; when the middleware at position [j] is the
    first to throw, those up to it are invoked as prescribed, no other is,
    and nothing is committed. *)
Definition runs_pipeline_as_prescribed (out : Outcome) (st : Store) (h2 : heap)
    (cand : loc) : Prop :=
  let ms := middleware st in
  let prev := o_prev out in
  match cumulative_output ms h2 cand prev with
  | Some (hk, final) =>
    o_calls out = prescribed_calls (length ms) ms h2 cand prev
    ∧ length (o_calls out) = length ms
    ∧ o_committed out = true
    ∧ getState (o_store out) = final
    ∧ o_heap out = hk
  | None =>
    ∃ j m hj nj e,
      ms !! j = Some m
      ∧ cumulative_output (take j ms) h2 cand prev = Some (hj, nj)
      ∧ m hj nj prev = MwThrow e
      ∧ o_calls out = prescribed_calls (S j) ms h2 cand prev
      ∧ length (o_calls out) = S j
      ∧ o_thrown out = Some e
      ∧ o_committed out = false
      ∧ o_store out = st
      ∧ o_notified out = []
  end.

(** [setState(u)] with the plain object at [lu] commits a shallow merge: the
    committed state holds every key of the update with the update's value
    and every other key with its value in the state before the call, and
    the object [getState()] returned before the call is as it was. *)
Definition commits_shallow_merge (funs : fn_ref -> Listener) (h : heap) (st : Store)
    (lu : loc) : Prop :=
  let s := own_props h (VRef (getState st)) in
  let u := own_props h (VRef lu) in
  let out := setState funs h st (UVal (VRef lu)) in
  let s' := own_props (o_heap out) (VRef (getState (o_store out))) in
  (∀ k v, u !! k = Some v → s' !! k = Some v)
  ∧ (∀ k, u !! k = None → s' !! k = s !! k)
  ∧ own_props (o_heap out) (VRef (getState st)) = s.

(** One [setState] call invokes exactly the registrations [ls], one
    invocation per registration, in registration order. *)
Definition notifies_each_registration (funs : fn_ref -> Listener) (h : heap)
    (st0 : Store) (ls : list fn_ref) (u : StateUpdater) : Prop :=
  n_listener <$> o_notified (setState funs h (subscribe_all ls st0) u) = ls.

(** A committed update reaches every listener of the store, and no listener's
    exception reaches the caller of [setState]. *)
Definition isolates_listener_errors (funs : fn_ref -> Listener) (h : heap)
    (st : Store) (u : StateUpdater) : Prop :=
  let out := setState funs h st u in
  o_committed out = true →
  n_listener <$> o_notified out = listeners st ∧ o_thrown out = None.

(** After [destroy()], a [setState] call either leaves the state as it was or
    fails with an exception without committing. *)
Definition inert_after_destroy (funs : fn_ref -> Listener) (h : heap)
    (st : Store) (u : StateUpdater) : Prop :=
  let out := setState funs h (destroy st) u in
  own_props (o_heap out) (VRef (getState (o_store out)))
    = own_props h (VRef (getState st))
  ∨ (o_committed out = false ∧ is_Some (o_thrown out)).



(** Every dependency output on the new state compares equal, under [eq], to
    the output observed before. *)
Definition deps_unchanged (eq : val -> val -> bool) (depsValues lastDepsValues : list val)
  : Prop :=
  Forall2 (λ value last, eq value last = true) depsValues lastDepsValues.

(** A call whose dependency outputs all compare equal to the cached ones
    returns the cached value without invoking [compute]. *)
Definition reuses_cached_value (compute : Selector) (options : DerivedOptions)
    (ds : list Selector) (c : DerivedCache) (h : heap) (state : val) : Prop :=
  deps_unchanged (default shallowEqual (equals options) h)
    ((λ dep : Selector, dep h state) <$> ds) (d_lastDepsValues c) →
  derived_call compute options c h state = (c, d_lastResult c, false).

(** The cursor is a valid index whenever there is a snapshot, and the
    sequence is no longer than [maxSnapshots]. *)
Definition cursor_valid (m : SnapshotManager) : Prop :=
  (snapshots m ≠ [] → 0 ≤ currentIndex m < Z.of_nat (length (snapshots m)))
  ∧ Z.of_nat (length (snapshots m)) ≤ maxSnapshots m.

(** [takeSnapshot(); mutate; takeSnapshot(); undo()] brings the state back to
    what it was at the first snapshot, and [redo()] then brings back the
    mutated state. *)
Definition undo_redo_round_trip (funs : fn_ref -> Listener) (w : World)
    (t1 t2 : Z) (d1 d2 : option string) (mutate : StateUpdater) : Prop :=
  let mutated := run funs w [TakeSnapshot t1 d1; SetState mutate] in
  let undone := run funs mutated [TakeSnapshot t2 d2; Undo] in
  let redone := step funs undone Redo in
  current undone = current w ∧ current redone = current mutated.


(** ** Sample stores and selectors *)

Definition count0 : obj := {["count" := VNum 0]}.
Definition count1 : obj := {["count" := VNum 1]}.

(** A heap holding an initial state [{count: 0}] at 0 and an update
    [{count: 1}] at 1. *)
Definition sample_heap : heap := [count0; count1].

(** Listeners that return normally, whatever their reference. *)
Definition quiet : fn_ref -> Listener := λ _ _ _ _, None.

(** What [createThrottleMiddleware] does inside its window: it cancels the
    update by returning [prevState]. *)
Definition throttling : Middleware := λ _ _ prevState, MwReturn prevState.

(** What [createLoggerMiddleware] does to the state: it returns [nextState]. *)
Definition logging : Middleware := λ _ nextState _, MwReturn nextState.

(** A store on [{count: 0}] without middleware, and listeners of which the
    one referenced by 1 throws. *)
Definition sample_store : Store :=
  {| state := 0%nat; listeners := []; middleware := [] |}.
Definition faulty : fn_ref -> Listener :=
  λ f _ _ _, if decide (f = 1%nat) then Some (Thrown (VStr "boom")) else None.

(** Middleware that return nothing, and middleware that return a new object:
    their [nextState] with one more field. *)
Definition silent : Middleware := λ _ _ _, MwUndefined.
Definition stamping : Middleware :=
  λ h nextState _, MwFresh (<["stamped" := VBool true]> (own_props h (VRef nextState))).

(** A state [{a: 1, b: 2}] at 0 and an update [{b: 3}] at 1. *)
Definition ab_heap : heap :=
  [ {["a" := VNum 1; "b" := VNum 2]}; {["b" := VNum 3]} ].

(** The options [{ deps: [state => state.a] }] of [derived]. *)
Definition c_by_a : DerivedOptions :=
  {| equals := None; deps := Some [field "a"] |}.

(** ** Further code of the store, its middleware and its selectors *)

(** What the [writes] of a recipe make of the contents [o] of an object,
    taken one after the other. *)
Definition written (o : obj) (writes : list write) : obj :=
  foldl (λ o' w, match w with
                 | WSet key v => <[key := v]> o'
                 | WDelete key => delete key o'
                 end) o writes.

(** A write that changes nothing in [o]: the assignment of the value the
    field holds, the [delete] of a field [o] does not have. *)
Definition changes_nothing (o : obj) (w : write) : Prop :=
  match w with
  | WSet key v => o !! key = Some v
  | WDelete key => o !! key = None
  end.

(** A middleware that throws [e] whenever it is called. *)
Definition throwing (e : exn) : Middleware := λ _ _ _, MwThrow e.

(** *** Middleware combinators (middleware/index.ts) *)

(** [combineMiddleware(...middlewares)], called on [(nextState, prevState)]:
    the [reduce] over the middleware, each called on the state the ones
    before it produced; an exception ends the reduction. *)
Definition combineMiddleware (middlewares : list Middleware) (h : heap)
    (nextState prevState : loc) : heap * completion loc :=
  foldl (λ (acc : heap * completion loc) (middleware : Middleware),
      match acc with
      | (h', Normal state) =>
        match middleware h' state prevState with
        | MwUndefined => (h', Normal state)
        | MwReturn result => (h', Normal result)
        | MwFresh o => let '(h'', result) := alloc h' o in (h'', Normal result)
        | MwThrow e => (h', Throw e)
        end
      | (h', Throw e) => (h', Throw e)
      end)
    (h, Normal nextState) middlewares.

(** [a !== b] on the modelled values. *)
Definition strict_ne (a b : val) : bool := negb (bool_decide (a = b)).

(** [createScopedMiddleware(paths, middleware)] *)
Definition createScopedMiddleware (paths : list string) (middleware : Middleware)
  : Middleware :=
  λ h nextState prevState,
    let hasChanges :=
      existsb (λ path,
        strict_ne (get (own_props h (VRef nextState)) path)
                  (get (own_props h (VRef prevState)) path)) paths in
    if hasChanges then middleware h nextState prevState else MwReturn nextState.

(** [createConditionalMiddleware(condition, middleware)] *)
Definition createConditionalMiddleware (condition : heap -> loc -> loc -> bool)
    (middleware : Middleware) : Middleware :=
  λ h nextState prevState,
    if condition h nextState prevState then middleware h nextState prevState
    else MwReturn nextState.

(** [createSnapshotMiddleware({ snapshotFilter })] (snapshot.ts): whatever the
    filter answers, the middleware returns [nextState]. *)
Definition createSnapshotMiddleware (snapshotFilter : option (heap -> loc -> loc -> bool))
  : Middleware :=
  λ _ nextState _, MwReturn nextState.

(** *** [computedWith] (computed.ts) *)

(** [computedWith(deps, compute, options)]: the compute function and the
    options it hands to [derived].  [compute] receives the dependency
    outputs, and reads the objects they refer to in the heap of the call. *)
Definition computedWith (deps : list Selector) (compute : heap -> list val -> val)
    (equals : option (heap -> val -> val -> bool)) : Selector * DerivedOptions :=
  (λ h state, compute h ((λ dep : Selector, dep h state) <$> deps),
   {| equals := equals; deps := Some deps |}).

(** One call of the selector [computedWith] returns. *)
Definition computedWith_call (deps : list Selector) (compute : heap -> list val -> val)
    (equals : option (heap -> val -> val -> bool))
    (c : DerivedCache) (h : heap) (state : val) : DerivedCache * val * bool :=
  derived_call (computedWith deps compute equals).1 (computedWith deps compute equals).2
    c h state.

(** Successive calls of a memoised selector, each on the heap and state of
    its time: the cache left at the end and, for each call, the value
    returned and whether [compute] was invoked. *)
Fixpoint selector_run (call : DerivedCache -> heap -> val -> DerivedCache * val * bool)
    (c : DerivedCache) (inputs : list (heap * val)) : DerivedCache * list (val * bool) :=
  match inputs with
  | [] => (c, [])
  | (h, state) :: rest =>
    let '(c', r, invoked) := call c h state in
    let '(c'', rs) := selector_run call c' rest in
    (c'', (r, invoked) :: rs)
  end.

(** A value that is not a reference, or refers to an object of the heap. *)
Definition allocated (h : heap) (v : val) : Prop :=
  match v with VRef l => is_Some (h !! l) | _ => True end.

(** The calls are made in the course of time: the heap of each call extends
    the heaps of the calls before it. *)
Fixpoint in_time (inputs : list (heap * val)) : Prop :=
  match inputs with
  | [] => True
  | (h, _) :: rest => Forall (λ later, extends h later.1) rest ∧ in_time rest
  end.

(** The dependency outputs of every call refer to objects that exist at the
    time of the call. *)
Definition deps_allocated (deps : list Selector) (inputs : list (heap * val)) : Prop :=
  Forall (λ '(h, state), Forall (allocated h) ((λ dep : Selector, dep h state) <$> deps))
    inputs.

(** [compute] cannot tell apart what the equality function does not tell
    apart: on dependency outputs that compare equal to earlier ones, it
    gives the value it gave on the earlier ones. *)
Definition respects (equals : heap -> val -> val -> bool)
    (compute : heap -> list val -> val) : Prop :=
  ∀ h h' dv dv',
    extends h' h → Forall (allocated h') dv' →
    deps_unchanged (equals h) dv dv' →
    compute h dv = compute h' dv'.

(** The cache of a [computedWith] selector holds the value [compute] gave,
    at an earlier time, on the dependency outputs it holds; [later] are the
    heaps of the calls to come. *)
Definition computed_cache_ok (deps : list Selector) (compute : heap -> list val -> val)
    (later : list heap) (c : DerivedCache) : Prop :=
  (d_lastResult c = VUndef
   ∨ ∃ h0, Forall (extends h0) later
           ∧ Forall (allocated h0) (d_lastDepsValues c)
           ∧ d_lastResult c = compute h0 (d_lastDepsValues c))
  ∧ (d_lastDepsValues c = [] ∨ length (d_lastDepsValues c) = length deps)
  ∧ (deps = [] -> d_lastDepsValues c = []).

(** The [name] of the object the first dependency output refers to. *)
Definition name_of : heap -> list val -> val :=
  λ h dv, get (own_props h (default VUndef (head dv))) "name".


(** *** Sequences of snapshot operations *)

(** The timestamps of the [takeSnapshot] calls among [ops], in order. *)
Definition taken (ops : list Op) : list Z :=
  omap (λ op, match op with TakeSnapshot t _ => Some t | _ => None end) ops.

(** Only [takeSnapshot] calls and store updates. *)
Definition records_only (ops : list Op) : Prop :=
  Forall (λ op, match op with TakeSnapshot _ _ | SetState _ => True | _ => False end) ops.

(** *** Slices (slice.ts) *)

(** What [setState] does once [produce] has answered: the middleware, the
    assignment to [state] and the listeners, or nothing of it when the
    recipe threw. *)
Definition commit (funs : fn_ref -> Listener) (st : Store) (prevState : loc)
    (produced : heap * completion loc) : Outcome :=
  let '(h2, c) := produced in
  match c with
  | Throw e =>
    {| o_heap := h2; o_store := st; o_prev := prevState; o_committed := false;
       o_calls := []; o_notified := []; o_thrown := Some e |}
  | Normal nextState =>
    let '(h3, calls, piped) :=
      if bool_decide (0 < length (middleware st))%nat
      then applyMiddleware (middleware st) h2 nextState prevState
      else (h2, [], Normal nextState) in
    match piped with
    | Throw e =>
      {| o_heap := h3; o_store := st; o_prev := prevState; o_committed := false;
         o_calls := calls; o_notified := []; o_thrown := Some e |}
    | Normal nextState' =>
      let st' := {| state := nextState'; listeners := listeners st;
                    middleware := middleware st |} in
      let '(ns, r) := notify funs h3 (listeners st') (state st') prevState in
      {| o_heap := h3; o_store := st'; o_prev := prevState; o_committed := true;
         o_calls := calls; o_notified := ns; o_thrown := r |}
    end
  end.

(** What the function handed to [setSlice] does with the slice it is given
    (a draft, when the slice is an object): nothing, write to the fields of
    the draft (the [writes], in order) and return nothing, return a value
    that exists or an object it has just built, or throw.  A slice that is
    not an object has no draft: a function that assigns to it throws or,
    in sloppy code, has its assignments ignored.  A function that both
    writes to the draft and returns a value is not covered. *)
Inductive slice_result :=
  | SUntouched
  | SMutated (writes : list write)
  | SReturn (result : val)
  | SFresh (o : obj)
  | SThrow (e : exn).

(** The argument of [setSlice]: [typeof updater === 'function'] or anything
    else. *)
Inductive SliceUpdater :=
  | SFun (f : heap -> val -> slice_result)
  | SVal (v : val).

(** [createSlice(store, path).getSlice()] *)
Definition getSlice (path : string) (h : heap) (st : Store) : val :=
  get (own_props h (VRef (getState st))) path.

(** [createSlice(store, path).select(selector)] *)
Definition select {U} (selector : heap -> val -> U) (path : string) (h : heap)
    (st : Store) : U :=
  selector h (getSlice path h st).

(** [state[path] = { ...state[path], ...result }] on the draft of [base], and
    the state [produce] makes of the draft: a copy of [base] with the new
    object under [path]. *)
Definition merge_slice (path : string) (h : heap) (base : loc) (result : val)
  : heap * completion loc :=
  let '(h1, merged) := alloc h (spread2 h (get (own_props h (VRef base)) path) result) in
  let '(h2, nextState) := alloc h1 (<[path := VRef merged]> (own_props h (VRef base))) in
  (h2, Normal nextState).

(** [produce(state, recipe)] for the recipe [setSlice] hands to [setState]. *)
Definition slice_recipe (path : string) (updater : SliceUpdater) (h : heap) (base : loc)
  : heap * completion loc :=
  match updater with
  | SFun f =>
    match f h (get (own_props h (VRef base)) path) with
    | SUntouched => (h, Normal base)
    | SMutated writes =>
      match get (own_props h (VRef base)) path with
      | VRef slice =>
        let '(modified, copy) := write_all (own_props h (VRef slice)) writes in
        if modified then
          let '(h1, slice') := alloc h copy in
          let '(h2, nextState) :=
            alloc h1 (<[path := VRef slice']> (own_props h (VRef base))) in
          (h2, Normal nextState)
        else (h, Normal base)
      | _ => (h, Normal base)
      end
    | SReturn result =>
      if bool_decide (result = VUndef) then (h, Normal base)
      else merge_slice path h base result
    | SFresh o => let '(h', result) := alloc h o in merge_slice path h' base (VRef result)
    | SThrow e => (h, Throw e)
    end
  | SVal v => merge_slice path h base v
  end.

(** [createSlice(store, path).setSlice(updater)] *)
Definition setSlice (funs : fn_ref -> Listener) (path : string) (updater : SliceUpdater)
    (h : heap) (st : Store) : Outcome :=
  let '(h1, prevState) := alloc h (own_props h (VRef (state st))) in
  commit funs st prevState (slice_recipe path updater h1 (state st)).

(** A property read [v[key]]: a [TypeError] ([None]) on [undefined] and
    [null]; inherited properties are not modelled. *)
Definition read (h : heap) (v : val) (key : string) : option val :=
  match v with
  | VUndef | VNull => None
  | VRef _ => Some (get (own_props h v) key)
  | VStr s =>
    Some (if bool_decide (key = "length") then VNum (Z.of_nat (String.length s))
          else get (str_props 0 s) key)
  | VBool _ | VNum _ => Some VUndef
  end.

(** What [produce] answers for the recipe of a nested slice: a state, the
    exception of the updater, or the [TypeError] of the recipe's own
    property accesses. *)
Inductive nested_completion :=
  | NNormal (nextState : loc)
  | NThrow (e : exn)
  | NTypeError.

(** [state[parentPath][childPath] = { ...cur, ...result }] where [cur] is the
    child read before: the assignment fails on a parent that is not an
    object (the module is strict code); otherwise [produce] copies the
    state and the parent. *)
Definition merge_nested (parentPath childPath : string) (h : heap) (base : loc)
    (cur result : val) : heap * nested_completion :=
  let '(h1, merged) := alloc h (spread2 h cur result) in
  match get (own_props h (VRef base)) parentPath with
  | VRef parent =>
    let '(h2, parent') :=
      alloc h1 (<[childPath := VRef merged]> (own_props h (VRef parent))) in
    let '(h3, nextState) :=
      alloc h2 (<[parentPath := VRef parent']> (own_props h (VRef base))) in
    (h3, NNormal nextState)
  | _ => (h1, NTypeError)
  end.

(** [produce(state, recipe)] for the recipe of [createNestedSlice]'s
    [setSlice]. *)
Definition nested_recipe (parentPath childPath : string) (updater : SliceUpdater)
    (h : heap) (base : loc) : heap * nested_completion :=
  let parent := get (own_props h (VRef base)) parentPath in
  match updater with
  | SFun f =>
    match read h parent childPath with
    | None => (h, NTypeError)
    | Some cur =>
      match f h cur with
      | SUntouched => (h, NNormal base)
      | SMutated writes =>
        match parent, cur with
        | VRef p, VRef child =>
          let '(modified, copy) := write_all (own_props h (VRef child)) writes in
          if modified then
            let '(h1, child') := alloc h copy in
            let '(h2, parent') :=
              alloc h1 (<[childPath := VRef child']> (own_props h parent)) in
            let '(h3, nextState) :=
              alloc h2 (<[parentPath := VRef parent']> (own_props h (VRef base))) in
            (h3, NNormal nextState)
          else (h, NNormal base)
        | _, _ => (h, NNormal base)
        end
      | SReturn result =>
        if bool_decide (result = VUndef) then (h, NNormal base)
        else merge_nested parentPath childPath h base cur result
      | SFresh o =>
        let '(h', result) := alloc h o in
        merge_nested parentPath childPath h' base cur (VRef result)
      | SThrow e => (h, NThrow e)
      end
    end
  | SVal v =>
    match read h parent childPath with
    | None => (h, NTypeError)
    | Some cur => merge_nested parentPath childPath h base cur v
    end
  end.

(** How a call of a nested slice's [setSlice] ends: with the [TypeError] of
    its recipe, which leaves [setState] before the middleware, or as a
    [setState] call does. *)
Inductive NestedOutcome :=
  | TypeErrorThrown (h : heap) (prevState : loc)
  | Settled (out : Outcome).

(** [createSlice(store, parentPath).slice(childPath).setSlice(updater)] *)
Definition nested_setSlice (funs : fn_ref -> Listener) (parentPath childPath : string)
    (updater : SliceUpdater) (h : heap) (st : Store) : NestedOutcome :=
  let '(h1, prevState) := alloc h (own_props h (VRef (state st))) in
  match nested_recipe parentPath childPath updater h1 (state st) with
  | (h2, NNormal nextState) => Settled (commit funs st prevState (h2, Normal nextState))
  | (h2, NThrow e) => Settled (commit funs st prevState (h2, Throw e))
  | (h2, NTypeError) => TypeErrorThrown h2 prevState
  end.

(** [createSlice(store, parentPath).slice(childPath).getSlice()] *)
Definition nested_getSlice (parentPath childPath : string) (h : heap) (st : Store)
  : option val :=
  read h (get (own_props h (VRef (getState st))) parentPath) childPath.

(** A state [{ user: { name: "ann", age: 30 }, count: 0 }] at 1, its [user] at
    0 and an update [{ age: 31 }] at 2. *)
Definition user_heap : heap :=
  [ {["name" := VStr "ann"; "age" := VNum 30]};
    {["user" := VRef 0%nat; "count" := VNum 0]};
    {["age" := VNum 31]} ].
Definition user_store : Store :=
  {| state := 1%nat; listeners := [0%nat]; middleware := [logging] |}.

(** Later heaps of the same store: a copy of the user at 3 and a state
    [{ user: <3>, count: 1 }] at 4; then a user [{ name: "bob" }] at 5 and a
    state [{ user: <5> }] at 6. *)
Definition user_heap1 : heap :=
  user_heap ++ [ {["name" := VStr "ann"; "age" := VNum 30]};
                 {["user" := VRef 3%nat; "count" := VNum 1]} ].
Definition user_heap2 : heap :=
  user_heap1 ++ [ {["name" := VStr "bob"]}; {["user" := VRef 5%nat]} ].
(** ** Properties of the store core *)

Lemma extends_refl h : extends h h.
Proof. exists []. by rewrite app_nil_r. Qed.

Lemma extends_trans h1 h2 h3 : extends h1 h2 → extends h2 h3 → extends h1 h3.
Proof. intros [e1 ->] [e2 ->]. exists (e1 ++ e2). by rewrite app_assoc. Qed.

Lemma extends_alloc (h : heap) o : extends h (h ++ [o]).
Proof. by exists [o]. Qed.

Lemma extends_lookup (h h' : heap) l o : extends h h' → h !! l = Some o → h' !! l = Some o.
Proof. intros [ext ->] Hl. by apply lookup_app_l_Some. Qed.


Lemma applyMiddleware_from_extends i mws h r p h' calls res :
  applyMiddleware_from i mws h r p = (h', calls, res) → extends h h'.
Proof.
  revert i h r calls res. induction mws as [|m rest IH]; intros i h r calls res; simpl.
  - intros [= <- _ _]. apply extends_refl.
  - destruct (m h r p) as [|l|o|e].
    + destruct (applyMiddleware_from (S i) rest h r p) as [[h'' cs] r'] eqn:E.
      intros [= <- _ _]. eauto.
    + destruct (applyMiddleware_from (S i) rest h l p) as [[h'' cs] r'] eqn:E.
      intros [= <- _ _]. eauto.
    + destruct (applyMiddleware_from (S i) rest (h ++ [o]) (length h) p)
        as [[h'' cs] r'] eqn:E.
      intros [= <- _ _]. eapply extends_trans; [apply (extends_alloc h o)|eauto].
    + intros [= <- _ _]. apply extends_refl.
Qed.

Lemma candidate_extends h st u h' c : candidate h st u = (h', c) → extends h h'.
Proof.
  destruct u as [f|v]; simpl.
  - unfold produce. destruct (f h (state st)) as [|ws|l|o|e]; simpl;
      [|destruct (write_all _ ws) as [[] copy]; simpl| | |]; intros [= <- _];
      auto using extends_refl, extends_alloc.
  - intros [= <- _]. apply (extends_alloc h).
Qed.

(** The guard [middleware.length > 0] changes nothing: the loop over an empty
    array returns its input. *)
Lemma pipeline_guard mws h n p :
  (if bool_decide (0 < length mws)%nat then applyMiddleware mws h n p
   else (h, [], Normal n)) = applyMiddleware mws h n p.
Proof. destruct mws; [done|]. by rewrite bool_decide_eq_true_2 by (simpl; lia). Qed.

(** [setState], phase by phase. *)
Lemma setState_unfold funs h st u :
  setState funs h st u =
  let prevState := length h in
  let '(h2, c) := candidate (h ++ [own_props h (VRef (state st))]) st u in
  match c with
  | Throw e =>
    {| o_heap := h2; o_store := st; o_prev := prevState; o_committed := false;
       o_calls := []; o_notified := []; o_thrown := Some e |}
  | Normal nextState =>
    let '(h3, calls, piped) := applyMiddleware (middleware st) h2 nextState prevState in
    match piped with
    | Throw e =>
      {| o_heap := h3; o_store := st; o_prev := prevState; o_committed := false;
         o_calls := calls; o_notified := []; o_thrown := Some e |}
    | Normal nextState' =>
      {| o_heap := h3;
         o_store := {| state := nextState'; listeners := listeners st;
                       middleware := middleware st |};
         o_prev := prevState; o_committed := true; o_calls := calls;
         o_notified := (notify funs h3 (listeners st) nextState' prevState).1;
         o_thrown := (notify funs h3 (listeners st) nextState' prevState).2 |}
    end
  end.
Proof.
  unfold setState; simpl.
  destruct (candidate _ st u) as [h2 [n|e]]; [|done].
  rewrite pipeline_guard.
  destruct (applyMiddleware _ h2 n (length h)) as [[h3 calls] [n'|e]]; [|done].
  simpl. by destruct (notify funs h3 (listeners st) n' (length h)).
Qed.

Lemma setState_prev funs h st u : o_prev (setState funs h st u) = length h.
Proof.
  rewrite setState_unfold; simpl.
  destruct (candidate _ st u) as [h2 [n|e]]; [|done].
  by destruct (applyMiddleware _ h2 n (length h)) as [[h3 calls] [n'|e]].
Qed.

Lemma setState_extends funs h st u :
  extends (h ++ [own_props h (VRef (state st))]) (o_heap (setState funs h st u)).
Proof.
  rewrite setState_unfold; simpl.
  destruct (candidate _ st u) as [h2 [n|e]] eqn:Ec;
    apply candidate_extends in Ec; [|done].
  destruct (applyMiddleware _ h2 n (length h)) as [[h3 calls] r] eqn:Em.
  apply applyMiddleware_from_extends in Em.
  destruct r; simpl; by eapply extends_trans.
Qed.

(** No object that exists before a [setState] call is written to by it. *)
Lemma setState_preserves funs h st u l o :
  h !! l = Some o → o_heap (setState funs h st u) !! l = Some o.
Proof.
  intros Hl. eapply extends_lookup; [apply setState_extends|].
  by apply lookup_app_l_Some.
Qed.

Lemma applyMiddleware_from_prev i mws h r p h' calls res :
  applyMiddleware_from i mws h r p = (h', calls, res) →
  Forall (λ c, mw_prev c = p) calls.
Proof.
  revert i h r h' calls res.
  induction mws as [|m rest IH]; intros i h r h' calls res; simpl.
  - intros [= _ <- _]. constructor.
  - destruct (m h r p) as [|l|o|e].
    + destruct (applyMiddleware_from (S i) rest h r p) as [[h'' cs] r'] eqn:E.
      intros [= _ <- _]. constructor; [done|]. eauto.
    + destruct (applyMiddleware_from (S i) rest h l p) as [[h'' cs] r'] eqn:E.
      intros [= _ <- _]. constructor; [done|eauto].
    + destruct (applyMiddleware_from (S i) rest (h ++ [o]) (length h) p)
        as [[h'' cs] r'] eqn:E.
      intros [= _ <- _]. constructor; [done|eauto].
    + intros [= _ <- _]. by repeat constructor.
Qed.

Lemma notify_args funs h ls s p :
  Forall (λ n, n_state n = s ∧ n_prev n = p) (notify funs h ls s p).1.
Proof.
  induction ls as [|f rest IH]; simpl; [constructor|].
  destruct (funs f h s p); simpl; [by repeat constructor|].
  destruct (notify funs h rest s p) as [ns r]. by constructor.
Qed.

(** ** The previous-state copy *)

(** C10. On every [setState] call the [prevState] handed to each middleware
    and to each notified listener is one freshly allocated object: it is no
    object of the heap before the call (so it differs, as a reference, from
    the object [getState()] returned and from any state captured earlier),
    and it has exactly the own properties the pre-update state has. *)
Theorem prevState_is_fresh_copy funs (h : heap) st u (s : obj) :
  h !! getState st = Some s →
  let out := setState funs h st u in
  h !! o_prev out = None
  ∧ o_prev out ≠ getState st
  ∧ (∀ l, is_Some (h !! l) → o_prev out ≠ l)
  ∧ o_heap out !! o_prev out = Some s
  ∧ o_heap out !! getState st = Some s
  ∧ Forall (λ c, mw_prev c = o_prev out) (o_calls out)
  ∧ Forall (λ n, n_prev n = o_prev out) (o_notified out).
Proof.
  intros Hs out. unfold getState in *.
  assert (Hp : o_prev out = length h) by apply setState_prev.
  assert (Hfresh : ∀ l, is_Some (h !! l) → o_prev out ≠ l).
  { intros l Hl%lookup_lt_is_Some. lia. }
  split_and!; try done.
  - rewrite Hp. by apply lookup_ge_None.
  - apply Hfresh. by eexists.
  - rewrite Hp. eapply extends_lookup; [apply setState_extends|].
    rewrite lookup_app_r, Nat.sub_diag by done. simpl. by rewrite Hs.
  - by apply setState_preserves.
  - rewrite Hp. subst out. rewrite setState_unfold; simpl.
    destruct (candidate _ st u) as [h2 [n|e]]; [|constructor].
    destruct (applyMiddleware _ h2 n (length h)) as [[h3 calls] r] eqn:Em.
    apply applyMiddleware_from_prev in Em. by destruct r.
  - rewrite Hp. subst out. rewrite setState_unfold; simpl.
    destruct (candidate _ st u) as [h2 [n|e]]; [|constructor].
    destruct (applyMiddleware _ h2 n (length h)) as [[h3 calls] [n'|e]];
      [|constructor]. simpl.
    eapply Forall_impl; [apply notify_args|]. by intros ? [_ ?].
Qed.

Lemma prevState_is_fresh_copy_witness :
  let out := setState quiet sample_heap
    {| state := 0%nat; listeners := [3%nat]; middleware := [logging] |}
    (UVal (VRef 1%nat)) in
  o_prev out ≠ 0%nat ∧ o_heap out !! o_prev out = Some count0.
Proof.
  destruct (prevState_is_fresh_copy quiet sample_heap
    {| state := 0%nat; listeners := [3%nat]; middleware := [logging] |}
    (UVal (VRef 1%nat)) count0 eq_refl) as (_ & Hne & _ & Hcopy & _).
  split; [exact Hne | exact Hcopy].
Defined.


(** ** Shallow merge *)

Lemma applyMiddleware_from_passthrough i mws h n p :
  Forall passthrough mws →
  ∃ calls, applyMiddleware_from i mws h n p = (h, calls, Normal n)
           ∧ length calls = length mws.
Proof.
  intros Hall. revert i. induction Hall as [|m rest Hm _ IH]; intros i; simpl.
  - by exists [].
  - destruct (IH (S i)) as (calls & Hrun & Hlen).
    destruct (Hm h n p) as [-> | ->]; rewrite Hrun;
      (eexists; split; [reflexivity | simpl; lia]).
Qed.

(** A non-function update in a store with pass-through middleware: the
    call allocates the [prevState] copy and the merged object, commits the
    latter and notifies the listeners. *)
Lemma setState_value_passthrough funs (h : heap) st v :
  Forall passthrough (middleware st) →
  let s0 := own_props h (VRef (state st)) in
  let h1 := h ++ [s0] in
  let h2 := h1 ++ [spread2 h1 (VRef (state st)) v] in
  ∃ calls,
    length calls = length (middleware st) ∧
    setState funs h st (UVal v) =
    {| o_heap := h2;
       o_store := {| state := S (length h); listeners := listeners st;
                     middleware := middleware st |};
       o_prev := length h; o_committed := true; o_calls := calls;
       o_notified := (notify funs h2 (listeners st) (S (length h)) (length h)).1;
       o_thrown := (notify funs h2 (listeners st) (S (length h)) (length h)).2 |}.
Proof.
  intros Hpass. rewrite setState_unfold. simpl. unfold applyMiddleware.
  match goal with |- context [applyMiddleware_from 0 ?m ?h' ?n ?p] =>
    destruct (applyMiddleware_from_passthrough 0 m h' n p Hpass)
      as (calls & Hrun & Hlen)
  end.
  rewrite Hrun. exists calls. split; [done|].
  rewrite length_app. simpl. by rewrite Nat.add_1_r.
Qed.

(** C1 (amended). In a store whose middleware leave the proposed state alone
    (a store without middleware in particular), [setState(u)] with a plain
    object [u] commits a state that maps each key of [u] to [u]'s value and
    every other key to its value before the call, and the object
    [getState()] returned before the call keeps its properties. *)
Theorem setState_shallow_merge funs (h : heap) st (lu : loc) :
  is_Some (h !! getState st) → is_Some (h !! lu) →
  Forall passthrough (middleware st) →
  commits_shallow_merge funs h st lu
  ∧ o_committed (setState funs h st (UVal (VRef lu))) = true
  ∧ getState (o_store (setState funs h st (UVal (VRef lu)))) ≠ getState st.
Proof.
  unfold commits_shallow_merge, getState. intros [s Hs] [u Hu] Hpass.
  destruct (setState_value_passthrough funs h st (VRef lu) Hpass)
    as (calls & _ & ->). simpl.
  assert (Hlen : (state st < length h)%nat) by by eapply lookup_lt_Some.
  rewrite Hs, Hu. simpl.
  rewrite lookup_app_r by (rewrite length_app; simpl; lia).
  rewrite length_app. simpl. replace (S (length h) - (length h + 1))%nat with 0%nat by lia.
  simpl. unfold spread2. simpl.
  rewrite !(lookup_app_l_Some _ _ _ _ Hs), !(lookup_app_l_Some _ _ _ _ Hu).
  rewrite (lookup_app_l_Some _ _ _ _ (lookup_app_l_Some _ _ _ _ Hs)). simpl.
  split_and!; try done.
  - intros k v Hk. by apply lookup_union_Some_l.
  - intros k Hk. by apply lookup_union_r.
  - lia.
Qed.

Lemma setState_shallow_merge_witness :
  commits_shallow_merge quiet sample_heap
    {| state := 0%nat; listeners := [3%nat]; middleware := [logging] |} 1%nat.
Proof.
  apply setState_shallow_merge; simpl.
  - by eexists.
  - by eexists.
  - constructor; [|constructor]. intros h n p. by right.
Defined.

(** C1 as stated fails in a store with a middleware that replaces the
    proposed state: with the throttle middleware inside its window,
    [setState({count: 1})] on [{count: 0}] commits [{count: 0}]. *)
Lemma setState_merge_cancelled_by_middleware :
  ¬ commits_shallow_merge quiet sample_heap
      {| state := 0%nat; listeners := []; middleware := [throttling] |} 1%nat.
Proof.
  intros (Hu & _ & _). specialize (Hu "count" (VNum 1) eq_refl).
  vm_compute in Hu. discriminate Hu.
Qed.

(** ** Listener notification *)

Lemma notify_throw_at funs h pre f post s p e :
  Forall (λ g, funs g h s p = None) pre → funs f h s p = Some e →
  notify funs h (pre ++ f :: post) s p
  = (notification s p <$> (pre ++ [f]), Some e).
Proof.
  intros Hpre Hf. induction Hpre as [|g pre Hg _ IH]; simpl.
  - by rewrite Hf.
  - by rewrite Hg, IH.
Qed.

Lemma notify_quiet funs h ls s p :
  Forall (λ g, funs g h s p = None) ls →
  notify funs h ls s p = (notification s p <$> ls, None).
Proof.
  induction 1 as [|g ls Hg _ IH]; simpl; [done|]. by rewrite Hg, IH.
Qed.

Lemma notify_returns funs h ls s p :
  (notify funs h ls s p).2 = None → Forall (λ g, funs g h s p = None) ls.
Proof.
  induction ls as [|g ls IH]; simpl; [constructor|].
  destruct (funs g h s p) eqn:Eg; [done|].
  destruct (notify funs h ls s p) as [ns r]; simpl in *. by constructor; auto.
Qed.


Lemma fmap_listener_notification s p (ls : list fn_ref) :
  n_listener <$> (notification s p <$> ls) = ls.
Proof. induction ls as [|f ls IH]; csimpl; [done|]. by rewrite IH. Qed.

(** The listener set after a sequence of registrations. *)
Lemma subscribe_all_listeners ls st :
  listeners (subscribe_all ls st) = foldl (λ acc l, set_add l acc) (listeners st) ls
  ∧ state (subscribe_all ls st) = state st
  ∧ middleware (subscribe_all ls st) = middleware st.
Proof.
  unfold subscribe_all. revert st. induction ls as [|l ls IH]; intros st; simpl; [done|].
  destruct (IH (subscribe l st)) as (-> & -> & ->). done.
Qed.

Lemma remove_dups_NoDup (l : list fn_ref) : NoDup l → remove_dups l = l.
Proof.
  induction 1 as [|x l Hx _ IH]; simpl; [done|].
  destruct (decide_rel elem_of x l) as [Hin|_]; [done|]. by rewrite IH.
Qed.

(** A [Set] filled by successive [add]s holds each reference once, at the
    place of its first insertion. *)
Lemma set_add_all (ls : list fn_ref) :
  foldl (λ acc l, set_add l acc) [] ls = reverse (remove_dups (reverse ls)).
Proof.
  induction ls as [|x ls IH] using rev_ind; [done|].
  rewrite foldl_snoc, IH, reverse_snoc. simpl. unfold set_add.
  destruct (decide (x ∈ reverse (remove_dups (reverse ls)))) as [Hin|Hin];
    rewrite elem_of_reverse, elem_of_remove_dups in Hin;
    destruct (decide_rel elem_of x (reverse ls)) as [Hin'|Hin']; try done.
  by rewrite reverse_cons.
Qed.

(** Unsubscribing removes the listener, and doing it again changes nothing. *)
Lemma unsubscribe_removes f st :
  (f ∉ listeners (unsubscribe f st))
  ∧ unsubscribe f (unsubscribe f st) = unsubscribe f st
  ∧ (∀ g, g ≠ f → (g ∈ listeners (unsubscribe f st) ↔ g ∈ listeners st)).
Proof.
  unfold unsubscribe, set_delete. simpl. split_and!.
  - rewrite list_elem_of_filter. intros [Hf _]. by apply Hf.
  - f_equal. apply list_filter_filter_r. done.
  - intros g Hg. rewrite list_elem_of_filter. split; [by intros [_ Hin]|by split].
Qed.

(** C2 (amended). After the registrations [ls] on a store without listeners,
    a [setState] call that returns normally has invoked each registered
    listener reference exactly once, in the order of the first registration
    of each, with the committed state and the [prevState] copy; registering
    a reference again adds no subscription.  When the registered references
    are pairwise distinct, the invocations are the registrations, in order. *)
Theorem listeners_notified_in_registration_order funs h st0 ls u :
  listeners st0 = [] →
  let out := setState funs h (subscribe_all ls st0) u in
  o_thrown out = None →
  n_listener <$> o_notified out = reverse (remove_dups (reverse ls))
  ∧ NoDup (n_listener <$> o_notified out)
  ∧ (∀ f, f ∈ n_listener <$> o_notified out ↔ f ∈ ls)
  ∧ (NoDup ls → notifies_each_registration funs h st0 ls u)
  ∧ Forall (λ n, n_state n = getState (o_store out) ∧ n_prev n = o_prev out)
      (o_notified out).
Proof.
  intros Hempty out Hret.
  destruct (subscribe_all_listeners ls st0) as (Hls & _ & _).
  rewrite Hempty, set_add_all in Hls.
  assert (Hn : n_listener <$> o_notified out = reverse (remove_dups (reverse ls))
               ∧ Forall (λ n, n_state n = getState (o_store out) ∧ n_prev n = o_prev out)
                   (o_notified out)).
  { subst out. rewrite setState_unfold in *. simpl in *.
    destruct (candidate _ _ u) as [h2 [n|e]]; [|done].
    destruct (applyMiddleware _ h2 n (length h)) as [[h3 calls] [n'|e]]; [|done].
    simpl in *. split; [|apply notify_args].
    rewrite (notify_quiet _ _ _ _ _ (notify_returns _ _ _ _ _ Hret)). simpl.
    by rewrite fmap_listener_notification. }
  destruct Hn as [Hn Hargs]. split_and!; try done.
  - rewrite Hn, reverse_Permutation. apply NoDup_remove_dups.
  - intros f. by rewrite Hn, elem_of_reverse, elem_of_remove_dups, elem_of_reverse.
  - intros Hnd. unfold notifies_each_registration. fold out. rewrite Hn.
    rewrite remove_dups_NoDup by by rewrite reverse_Permutation.
    apply reverse_involutive.
Qed.

Lemma listeners_notified_in_registration_order_witness :
  n_listener <$> o_notified
    (setState quiet sample_heap (subscribe_all [4; 2; 4; 9]%nat sample_store)
       (UVal (VRef 1%nat)))
  = [4; 2; 9]%nat.
Proof.
  apply (listeners_notified_in_registration_order quiet sample_heap sample_store
           [4; 2; 4; 9]%nat (UVal (VRef 1%nat))); reflexivity.
Defined.

(** C2 as stated fails when a listener reference is registered twice: the
    listener set holds it once, and one update invokes it once.  It also
    fails, for distinct listeners 0, 1, 2, when listener 1 throws: listener
    2 is not invoked. *)
Lemma second_registration_is_not_a_subscription :
  ¬ notifies_each_registration quiet sample_heap sample_store [7; 7]%nat
      (UVal (VRef 1%nat))
  ∧ ¬ notifies_each_registration faulty sample_heap sample_store [0; 1; 2]%nat
        (UVal (VRef 1%nat)).
Proof. unfold notifies_each_registration. split; vm_compute; discriminate. Qed.

(** C6 (amended). When listener [f] throws during the notification of a
    committed update, the listeners registered before it have been
    notified, [f] is the last listener notified, the listeners registered
    after it are not notified for that update, and the exception reaches the
    caller of [setState]; the new state stays committed. *)
Theorem listener_error_aborts_notification funs h st u pre f post e :
  let out := setState funs h st u in
  let called g := funs g (o_heap out) (getState (o_store out)) (o_prev out) in
  o_committed out = true →
  listeners st = pre ++ f :: post →
  Forall (λ g, called g = None) pre →
  called f = Some e →
  o_notified out
    = notification (getState (o_store out)) (o_prev out) <$> (pre ++ [f])
  ∧ o_thrown out = Some e
  ∧ (NoDup (listeners st) → ∀ g, g ∈ post → g ∉ n_listener <$> o_notified out).
Proof.
  intros out called. subst out called. rewrite setState_unfold. simpl.
  destruct (candidate _ _ u) as [h2 [n|e0]]; [|done].
  destruct (applyMiddleware _ h2 n (length h)) as [[h3 calls] [n'|e0]]; [|done].
  simpl. intros _ Hls Hpre Hf. rewrite Hls.
  rewrite (notify_throw_at _ _ _ _ _ _ _ _ Hpre Hf). simpl.
  split_and!; try done.
  intros Hnd g Hg. rewrite fmap_listener_notification.
  apply NoDup_app in Hnd as (_ & Hdisj & Hnd').
  apply NoDup_cons in Hnd' as [Hfp _].
  rewrite elem_of_app, list_elem_of_singleton. intros [Hin | ->].
  - apply (Hdisj g Hin). by right.
  - done.
Qed.

Lemma listener_error_aborts_notification_witness :
  o_thrown (setState faulty sample_heap
              {| state := 0%nat; listeners := [0; 1; 2]%nat; middleware := [] |}
              (UVal (VRef 1%nat)))
  = Some (Thrown (VStr "boom")).
Proof.
  apply (listener_error_aborts_notification faulty sample_heap
           {| state := 0%nat; listeners := [0; 1; 2]%nat; middleware := [] |}
           (UVal (VRef 1%nat)) [0%nat] 1%nat [2%nat] (Thrown (VStr "boom")));
    [reflexivity | reflexivity | by repeat constructor | reflexivity].
Defined.

(** C6 as stated fails: with listeners 0, 1, 2 of which 1 throws, a
    committed update never reaches listener 2 and the exception leaves
    [setState]. *)
Lemma listener_error_is_not_isolated :
  ¬ isolates_listener_errors faulty sample_heap
      {| state := 0%nat; listeners := [0; 1; 2]%nat; middleware := [] |}
      (UVal (VRef 1%nat)).
Proof. intros H. destruct (H eq_refl) as [Hn _]. vm_compute in Hn. discriminate Hn. Qed.

(** ** Destroying the store *)

(** C5 (amended). [destroy()] empties the listener set and changes nothing
    else: a later [setState] runs the update engine and the middleware and
    commits exactly as it would have on the store before [destroy()],
    notifying no listener; a listener subscribed after [destroy()] is
    notified again. *)
Theorem destroy_only_clears_listeners funs h st u f :
  let out := setState funs h st u in
  let out' := setState funs h (destroy st) u in
  listeners (destroy st) = []
  ∧ getState (destroy st) = getState st
  ∧ o_notified out' = []
  ∧ o_heap out' = o_heap out
  ∧ getState (o_store out') = getState (o_store out)
  ∧ o_committed out' = o_committed out
  ∧ o_calls out' = o_calls out
  ∧ o_thrown out' = (if o_committed out then None else o_thrown out)
  ∧ listeners (subscribe f (destroy st)) = [f].
Proof.
  intros out out'. subst out out'. rewrite !setState_unfold. simpl.
  destruct u as [recipe|v]; simpl.
  - destruct (produce _ (state st) recipe) as [h2 [n|e]]; [|done].
    by destruct (applyMiddleware _ h2 n (length h)) as [[h3 calls] [n'|e]].
  - match goal with |- context [applyMiddleware ?m ?h' ?n ?p] =>
      by destruct (applyMiddleware m h' n p) as [[h3 calls] [n'|e]] end.
Qed.

(** C5 as stated fails: after [destroy()], [setState({count: 1})] on
    [{count: 0}] returns normally and commits [{count: 1}]. *)
Lemma setState_commits_after_destroy :
  ¬ inert_after_destroy quiet sample_heap sample_store (UVal (VRef 1%nat)).
Proof.
  intros [Hsame | [Hc _]].
  - vm_compute in Hsame. discriminate Hsame.
  - vm_compute in Hc. discriminate Hc.
Qed.

(** ** Updates that are neither functions nor objects *)





(** A string update is spread character by character. *)
Example setState_string_update :
  let out := setState quiet sample_heap sample_store (UVal (VStr "ab")) in
  own_props (o_heap out) (VRef (getState (o_store out)))
  = {[ "0" := VStr "a"; "1" := VStr "b"; "count" := VNum 0 ]}.
Proof. vm_compute. reflexivity. Qed.

(** ** The middleware pipeline *)

Lemma applyMiddleware_from_indices i mws h r p h' calls res :
  applyMiddleware_from i mws h r p = (h', calls, res) →
  mw_index <$> calls = seq i (length calls)
  ∧ (length calls ≤ length mws)%nat
  ∧ (∀ n, res = Normal n → length calls = length mws).
Proof.
  revert i h r h' calls res.
  induction mws as [|m rest IH]; intros i h r h' calls res; simpl.
  - intros [= _ <- <-]. by split_and!.
  - destruct (m h r p) as [|l|o|e];
      [destruct (applyMiddleware_from (S i) rest h r p) as [[h'' cs] r'] eqn:E
      |destruct (applyMiddleware_from (S i) rest h l p) as [[h'' cs] r'] eqn:E
      |destruct (applyMiddleware_from (S i) rest (h ++ [o]) (length h) p)
         as [[h'' cs] r'] eqn:E
      |].
    1-3: intros [= _ <- <-]; destruct (IH _ _ _ _ _ _ E) as (Hi & Hl & Hn);
         csimpl; rewrite Hi; split_and!; [done | lia | intros n ->; by rewrite (Hn n)].
    intros [= _ <- <-]. csimpl. split_and!; [done | lia | done].
Qed.

(** What the [j]-th invocation of the loop sees is what the loop over the
    first [j] middleware returns, and what the invoked middleware answers
    decides what the loop over the first [j+1] returns. *)
Lemma applyMiddleware_from_prefix i mws h r p h' calls res j c :
  applyMiddleware_from i mws h r p = (h', calls, res) →
  calls !! j = Some c →
  mw_prev c = p ∧
  ∃ hj m, mws !! j = Some m
    ∧ applyMiddleware_from i (take j mws) h r p = (hj, take j calls, Normal (mw_next c))
    ∧ match m hj (mw_next c) p with
      | MwUndefined =>
        applyMiddleware_from i (take (S j) mws) h r p
        = (hj, take (S j) calls, Normal (mw_next c))
      | MwReturn l =>
        applyMiddleware_from i (take (S j) mws) h r p
        = (hj, take (S j) calls, Normal l)
      | MwFresh o =>
        applyMiddleware_from i (take (S j) mws) h r p
        = (hj ++ [o], take (S j) calls, Normal (length hj))
      | MwThrow e => res = Throw e ∧ length calls = S j
      end.
Proof.
  revert i h r h' calls res j c.
  induction mws as [|m rest IH]; intros i h r h' calls res j c; simpl.
  - intros [= _ <- _]. done.
  - destruct j as [|j].
    + destruct (m h r p) as [|l|o|e] eqn:Em;
        [destruct (applyMiddleware_from (S i) rest h r p) as [[h'' cs] r'] eqn:E
        |destruct (applyMiddleware_from (S i) rest h l p) as [[h'' cs] r'] eqn:E
        |destruct (applyMiddleware_from (S i) rest (h ++ [o]) (length h) p)
           as [[h'' cs] r'] eqn:E
        |];
        intros [= _ <- <-] [= <-]; simpl; (split; [reflexivity|]);
        exists h, m; simpl; rewrite !Em; simpl; by rewrite ?take_0.
    + destruct (m h r p) as [|l|o|e] eqn:Em;
        [destruct (applyMiddleware_from (S i) rest h r p) as [[h'' cs] r'] eqn:E
        |destruct (applyMiddleware_from (S i) rest h l p) as [[h'' cs] r'] eqn:E
        |destruct (applyMiddleware_from (S i) rest (h ++ [o]) (length h) p)
           as [[h'' cs] r'] eqn:E
        |].
      1-3: intros [= _ <- <-] Hc; simpl in Hc;
           destruct (IH _ _ _ _ _ _ _ _ E Hc) as (Hp & hj & m' & Hm' & Hpre & Hstep);
           (split; [done|]); exists hj, m'; simpl; rewrite ?Em, Hpre; simpl;
           (split; [done|]); (split; [done|]);
           destruct (m' hj (mw_next c) p); simpl in *; rewrite ?Em;
           [by rewrite Hstep | by rewrite Hstep | by rewrite Hstep
           | destruct Hstep as [-> ->]; done].
      intros [= _ <- _] Hc. done.
Qed.

(** The loop of [applyMiddleware] computes the cumulative output. *)
Lemma cumulative_output_None (ms : list Middleware) p :
  foldl (λ acc m, match acc with
                  | Some (h', n) => handed_on m h' n p
                  | None => None
                  end) None ms = None.
Proof. by induction ms. Qed.

Lemma cumulative_output_cons (m : Middleware) (ms : list Middleware) h n p :
  cumulative_output (m :: ms) h n p
  = match handed_on m h n p with
    | Some (h', n') => cumulative_output ms h' n' p
    | None => None
    end.
Proof.
  unfold cumulative_output. simpl.
  destruct (handed_on m h n p) as [[h' n']|]; [done|apply cumulative_output_None].
Qed.

Lemma applyMiddleware_from_cumulative i (ms : list Middleware) h n p h' calls res :
  applyMiddleware_from i ms h n p = (h', calls, res) →
  cumulative_output ms h n p
  = match res with Normal n' => Some (h', n') | Throw _ => None end.
Proof.
  revert i h n h' calls res.
  induction ms as [|m rest IH]; intros i h n h' calls res; simpl.
  - by intros [= <- _ <-].
  - rewrite cumulative_output_cons. unfold handed_on.
    destruct (m h n p) as [|l|o|e];
      [destruct (applyMiddleware_from (S i) rest h n p) as [[h'' cs] r'] eqn:E
      |destruct (applyMiddleware_from (S i) rest h l p) as [[h'' cs] r'] eqn:E
      |destruct (applyMiddleware_from (S i) rest (h ++ [o]) (length h) p)
         as [[h'' cs] r'] eqn:E
      |].
    1-3: intros [= <- _ <-]; by apply (IH _ _ _ _ _ _ E).
    by intros [= _ _ <-].
Qed.

(** When the loop ends with an exception, the middleware that threw it was
    invoked last, on the cumulative output of those before it. *)
Lemma applyMiddleware_from_thrower i (ms : list Middleware) h n p h' calls e :
  applyMiddleware_from i ms h n p = (h', calls, Throw e) →
  ∃ j m hj nj,
    ms !! j = Some m
    ∧ cumulative_output (take j ms) h n p = Some (hj, nj)
    ∧ m hj nj p = MwThrow e
    ∧ length calls = S j.
Proof.
  revert i h n h' calls.
  induction ms as [|m rest IH]; intros i h n h' calls; simpl; [done|].
  destruct (m h n p) as [|l|o|e'] eqn:Em;
    [destruct (applyMiddleware_from (S i) rest h n p) as [[h'' cs] r'] eqn:E
    |destruct (applyMiddleware_from (S i) rest h l p) as [[h'' cs] r'] eqn:E
    |destruct (applyMiddleware_from (S i) rest (h ++ [o]) (length h) p)
       as [[h'' cs] r'] eqn:E
    |].
  1-3: intros [= _ <- ->]; destruct (IH _ _ _ _ _ E) as (j & m' & hj & nj & Hm & Hc & Ht & Hl);
       exists (S j), m', hj, nj; simpl; rewrite cumulative_output_cons;
       unfold handed_on; rewrite Em; split_and!; try done; by rewrite Hl.
  intros [= _ <- ->]. exists 0%nat, m, h, n. by split_and!.
Qed.

Lemma applyMiddleware_from_app i (pre post : list Middleware) h r p h1 c1 n1 :
  applyMiddleware_from i pre h r p = (h1, c1, Normal n1) →
  applyMiddleware_from i (pre ++ post) h r p
  = (let '(h2, c2, r2) := applyMiddleware_from (i + length pre) post h1 n1 p in
     (h2, c1 ++ c2, r2)).
Proof.
  revert i h r h1 c1 n1.
  induction pre as [|m rest IH]; intros i h r h1 c1 n1; simpl.
  - intros [= <- <- <-]. rewrite Nat.add_0_r.
    by destruct (applyMiddleware_from i post h r p) as [[h2 c2] r2].
  - destruct (m h r p) as [|l|o|e];
      [destruct (applyMiddleware_from (S i) rest h r p) as [[h'' cs] r'] eqn:E
      |destruct (applyMiddleware_from (S i) rest h l p) as [[h'' cs] r'] eqn:E
      |destruct (applyMiddleware_from (S i) rest (h ++ [o]) (length h) p)
         as [[h'' cs] r'] eqn:E
      |]; [| | |done].
    all: intros [= <- <- ->]; rewrite (IH _ _ _ _ _ _ E);
      replace (S i + length rest)%nat with (i + S (length rest))%nat by lia;
      by destruct (applyMiddleware_from (i + S (length rest)) post h'' n1 p)
        as [[h2 c2] r2].
Qed.

Lemma omap_seq_lookup {A} (f : nat → option A) (l : list A) i :
  (∀ j c, l !! j = Some c → f (i + j)%nat = Some c) →
  omap f (seq i (length l)) = l.
Proof.
  revert i. induction l as [|c l IH]; intros i Hf; [done|].
  simpl. rewrite <- (Nat.add_0_r i) at 1. rewrite (Hf 0%nat c eq_refl). f_equal.
  apply IH. intros j c' Hj. rewrite Nat.add_succ_comm. by apply (Hf (S j)).
Qed.

(** Every invocation the loop makes is the prescribed one. *)
Lemma applyMiddleware_calls_prescribed (ms : list Middleware) h n p h' calls res :
  applyMiddleware_from 0 ms h n p = (h', calls, res) →
  ∀ j c, calls !! j = Some c → prescribed_call ms h n p j = Some c.
Proof.
  intros Hrun j c Hc.
  destruct (applyMiddleware_from_indices _ _ _ _ _ _ _ _ Hrun) as (Hidx & _ & _).
  destruct (applyMiddleware_from_prefix _ _ _ _ _ _ _ _ _ _ Hrun Hc)
    as (Hp & hj & m & _ & Hpre & _).
  unfold prescribed_call.
  rewrite (applyMiddleware_from_cumulative _ _ _ _ _ _ _ _ Hpre).
  assert (Hi : mw_index c = j).
  { assert (Hl : (mw_index <$> calls) !! j = Some (mw_index c))
      by by rewrite list_lookup_fmap, Hc.
    rewrite Hidx in Hl. apply lookup_seq in Hl as [Hl _]. by rewrite Hl. }
  destruct c as [ci cn cp]. simpl in *. by rewrite Hi, Hp.
Qed.

(** C3. Whenever the update engine yields a candidate [cand], [setState]
    applies the middleware as the specification prescribes.  When none
    throws, every registered middleware is invoked exactly once, in
    registration order, the one at position [i] on the cumulative output of
    those before it (the candidate for the first) and on the one
    [prevState], a copy of the state before the call; the cumulative output
    of all of them is committed.  A middleware that returns [undefined]
    hands on the [nextState] it was given (not [prevState]), one that
    returns an object hands on that object.  When a middleware throws,
    those registered after it are not invoked and nothing is committed. *)
Theorem middleware_applied_in_registration_order funs (h : heap) st u h2 cand :
  candidate (h ++ [own_props h (VRef (getState st))]) st u = (h2, Normal cand) →
  let out := setState funs h st u in
  let prev := o_prev out in
  runs_pipeline_as_prescribed out st h2 cand
  ∧ h !! prev = None
  ∧ own_props (o_heap out) (VRef prev) = own_props h (VRef (getState st))
  ∧ (∀ j c c' (m : Middleware) hj,
       o_calls out !! j = Some c → o_calls out !! S j = Some c' →
       middleware st !! j = Some m →
       cumulative_output (take j (middleware st)) h2 cand prev = Some (hj, mw_next c) →
       match m hj (mw_next c) prev with
       | MwUndefined => mw_next c' = mw_next c
       | MwReturn l => mw_next c' = l
       | MwFresh o => hj !! mw_next c' = None ∧ o_heap out !! mw_next c' = Some o
       | MwThrow _ => False
       end).
Proof.
  intros Hcand out prev.
  assert (Hprev : prev = length h) by apply setState_prev.
  assert (Hpc : own_props (o_heap out) (VRef prev) = own_props h (VRef (getState st))).
  { simpl. rewrite Hprev.
    erewrite (extends_lookup _ (o_heap out)); [done|apply setState_extends|].
    by rewrite lookup_app_r, Nat.sub_diag. }
  assert (Hfresh : h !! prev = None) by (rewrite Hprev; by apply lookup_ge_None).
  split_and!; [|done|done|]; clear Hpc Hfresh;
    unfold runs_pipeline_as_prescribed; fold prev; rewrite Hprev; clear Hprev;
    subst out prev; unfold getState in *; rewrite setState_unfold; simpl in *;
    rewrite Hcand; unfold applyMiddleware;
    destruct (applyMiddleware_from 0 (middleware st) h2 cand (length h))
      as [[h3 calls] res] eqn:Erun;
    pose proof (applyMiddleware_calls_prescribed _ _ _ _ _ _ _ Erun) as Hcalls;
    pose proof (applyMiddleware_from_cumulative _ _ _ _ _ _ _ _ Erun) as Hcum;
    destruct (applyMiddleware_from_indices _ _ _ _ _ _ _ _ Erun) as (_ & _ & Hall).
  - destruct res as [n'|e]; simpl in *; rewrite Hcum.
    + rewrite <- (Hall n' eq_refl). split_and!; try done.
      symmetry. by apply omap_seq_lookup.
    + destruct (applyMiddleware_from_thrower _ _ _ _ _ _ _ _ Erun)
        as (j & m & hj & nj & Hm & Hc & Ht & Hl).
      exists j, m, hj, nj, e. rewrite <- Hl. split_and!; try done.
      symmetry. by apply omap_seq_lookup.
  - assert (Hstep : ∀ j c c' (m : Middleware) hj, calls !! j = Some c → calls !! S j = Some c' →
      middleware st !! j = Some m →
      cumulative_output (take j (middleware st)) h2 cand (length h)
        = Some (hj, mw_next c) →
      match m hj (mw_next c) (length h) with
      | MwUndefined => mw_next c' = mw_next c
      | MwReturn l => mw_next c' = l
      | MwFresh o => hj !! mw_next c' = None ∧ h3 !! mw_next c' = Some o
      | MwThrow _ => False
      end).
    { intros j c c' m hj Hc Hc' Hm Hcj.
      destruct (applyMiddleware_from_prefix _ _ _ _ _ _ _ _ _ _ Erun Hc)
        as (_ & hj' & m' & Hm' & Hpre & Hstep).
      pose proof (eq_trans (eq_sym Hm) Hm') as Heq. injection Heq as <-.
      pose proof (applyMiddleware_from_cumulative _ _ _ _ _ _ _ _ Hpre) as Hcj'.
      rewrite Hcj in Hcj'. injection Hcj' as <-.
      pose proof (Hcalls _ _ Hc') as Hp'. unfold prescribed_call in Hp'.
      destruct (m hj (mw_next c) (length h)) as [|l|o|e] eqn:Em.
      - rewrite (applyMiddleware_from_cumulative _ _ _ _ _ _ _ _ Hstep) in Hp'.
        by injection Hp' as <-.
      - rewrite (applyMiddleware_from_cumulative _ _ _ _ _ _ _ _ Hstep) in Hp'.
        by injection Hp' as <-.
      - rewrite (applyMiddleware_from_cumulative _ _ _ _ _ _ _ _ Hstep) in Hp'.
        injection Hp' as <-. simpl. split; [by apply lookup_ge_None|].
        assert (Hext : extends (hj ++ [o]) h3).
        { rewrite <- (take_drop (S j) (middleware st)) in Erun.
          rewrite (applyMiddleware_from_app _ _ _ _ _ _ _ _ _ Hstep) in Erun.
          destruct (applyMiddleware_from _ (drop (S j) (middleware st)) (hj ++ [o])
                      (length hj) (length h)) as [[h4 c4] r4] eqn:E4.
          injection Erun as <- _ _. by eapply applyMiddleware_from_extends. }
        eapply extends_lookup; [exact Hext|]. by apply list_lookup_middle.
      - destruct Hstep as [_ Hlen]. apply lookup_lt_Some in Hc'. lia. }
    destruct res as [n'|e]; simpl in *; exact Hstep.
Qed.

Lemma middleware_applied_in_registration_order_witness :
  let out := setState quiet sample_heap
    {| state := 0%nat; listeners := []; middleware := [silent; stamping; logging] |}
    (UVal (VRef 1%nat)) in
  o_calls out = [ {| mw_index := 0; mw_next := 3; mw_prev := 2 |};
                  {| mw_index := 1; mw_next := 3; mw_prev := 2 |};
                  {| mw_index := 2; mw_next := 4; mw_prev := 2 |} ]%nat
  ∧ length (o_calls out) = 3%nat
  ∧ o_committed out = true
  ∧ getState (o_store out) = 4%nat
  ∧ o_heap out
    = sample_heap ++ [count0; count1; <["stamped" := VBool true]> count1].
Proof.
  destruct (middleware_applied_in_registration_order quiet sample_heap
    {| state := 0%nat; listeners := []; middleware := [silent; stamping; logging] |}
    (UVal (VRef 1%nat)) _ _ eq_refl) as (Hrun & _).
  exact Hrun.
Defined.


(** ** Dependency-based memoisation *)

Lemma some_dep_differs_from (eq : val → val → bool) (new old pre : list val) :
  length new = length old →
  existsb (λ '(i, value), negb (eq value (nth i (pre ++ old) VUndef)))
    (imap (λ i, pair (length pre + i)%nat) new) = false
  ↔ deps_unchanged eq new old.
Proof.
  unfold deps_unchanged. revert old pre.
  induction new as [|x new IH]; intros [|o old] pre; simpl; try done.
  intros [= Hlen].
  rewrite orb_false_iff, negb_false_iff.
  rewrite Nat.add_0_r, app_nth2, Nat.sub_diag by lia. simpl.
  specialize (IH old (pre ++ [o]) Hlen). rewrite <- app_assoc in IH. simpl in IH.
  rewrite (imap_ext _ (λ i, pair (length (pre ++ [o]) + i)%nat) new).
  - rewrite IH. split; [intros []; by constructor|by inversion 1].
  - intros i y _. simpl. rewrite length_app. simpl. f_equal. lia.
Qed.

Lemma some_dep_differs_false eq (new old : list val) :
  length new = length old →
  some_dep_differs eq new old = false ↔ deps_unchanged eq new old.
Proof. intros Hlen. apply (some_dep_differs_from eq new old [] Hlen). Qed.

(** C7 (amended). A selector built by [derived(f, { deps: [d1, ...] })] that
    holds the dependency outputs of an earlier call evaluates each
    dependency selector on the new state and compares the outputs, one by
    one and with the configured equality, with the cached ones.  When all
    compare equal and the cached value is not [undefined], it returns the
    cached value without invoking [f]; when some output differs, or when
    the cached value is [undefined], it invokes [f], returns the fresh
    value, and caches it with the new dependency outputs. *)
Theorem derived_memoises_on_dependencies compute options ds (c : DerivedCache) h state :
  deps options = Some ds → ds ≠ [] →
  length (d_lastDepsValues c) = length ds →
  let eq := default shallowEqual (equals options) h in
  let depsValues := (λ dep : Selector, dep h state) <$> ds in
  let fresh :=
    ({| d_lastState := d_lastState c; d_lastResult := compute h state;
        d_lastDepsValues := depsValues |}, compute h state, true) in
  (defined (d_lastResult c) = true → reuses_cached_value compute options ds c h state)
  ∧ (¬ deps_unchanged eq depsValues (d_lastDepsValues c) →
     derived_call compute options c h state = fresh)
  ∧ (d_lastResult c = VUndef → derived_call compute options c h state = fresh)
  ∧ length (d_lastDepsValues (derived_call compute options c h state).1.1) = length ds.
Proof.
  intros Hdeps Hne Hlen eq depsValues fresh.
  assert (Hl : length depsValues = length (d_lastDepsValues c)).
  { subst depsValues. by rewrite length_fmap. }
  assert (Hnz : bool_decide (length (d_lastDepsValues c) = 0%nat) = false).
  { apply bool_decide_eq_false. rewrite Hlen. by destruct ds. }
  pose proof (some_dep_differs_false eq _ _ Hl) as Hiff.
  unfold reuses_cached_value, derived_call. rewrite Hdeps.
  destruct ds as [|d ds']; [done|]. fold depsValues. fold eq. rewrite Hnz. simpl.
  split_and!.
  - intros Hdef Hsame. apply Hiff in Hsame. fold depsValues in Hsame.
    by rewrite Hsame, Hdef.
  - intros Hdiff.
    destruct (some_dep_differs eq depsValues (d_lastDepsValues c)) eqn:E; [done|].
    destruct Hdiff. by apply Hiff.
  - intros Hu. unfold defined. rewrite Hu. simpl. by rewrite andb_false_r.
  - destruct (negb (some_dep_differs eq depsValues (d_lastDepsValues c))
              && defined (d_lastResult c)); simpl; [done|].
    subst depsValues. by rewrite length_fmap.
Qed.

Lemma derived_memoises_on_dependencies_witness :
  let c1 := (derived_call (field "b") {| equals := None; deps := Some [field "a"] |}
               derived_init ab_heap (VRef 0%nat)).1.1 in
  let out := setState quiet ab_heap sample_store (UVal (VRef 1%nat)) in
  reuses_cached_value (field "b") {| equals := None; deps := Some [field "a"] |}
    [field "a"] c1 (o_heap out) (VRef (getState (o_store out))).
Proof.
  intros c1 out.
  apply (derived_memoises_on_dependencies (field "b")
           {| equals := None; deps := Some [field "a"] |} [field "a"] c1
           (o_heap out) (VRef (getState (o_store out)))); reflexivity || done.
Defined.

(** C7 as stated fails when the cached value is [undefined]: the selector
    [derived(state => state.c, { deps: [state => state.a] })] on
    [{a: 1, b: 2}], called again after [setState({b: 3})], finds its
    dependency unchanged and still invokes its compute function. *)
Lemma undefined_value_is_recomputed :
  let c1 := (derived_call (field "c") c_by_a derived_init ab_heap (VRef 0%nat)).1.1 in
  let out := setState quiet ab_heap sample_store (UVal (VRef 1%nat)) in
  ¬ reuses_cached_value (field "c") c_by_a [field "a"] c1
      (o_heap out) (VRef (getState (o_store out))).
Proof.
  intros c1 out Hreuse.
  assert (Hsame : deps_unchanged (default shallowEqual (equals c_by_a) (o_heap out))
            ((λ dep : Selector, dep (o_heap out) (VRef (getState (o_store out))))
               <$> [field "a"]) (d_lastDepsValues c1)).
  { repeat constructor. }
  specialize (Hreuse Hsame). vm_compute in Hreuse. discriminate Hreuse.
Qed.

(** The first call of a selector built by [derived] with dependencies invokes
    [compute] and caches the dependency outputs. *)
Lemma derived_first_call compute options d ds h state :
  deps options = Some (d :: ds) →
  derived_call compute options derived_init h state
  = ({| d_lastState := VUndef; d_lastResult := compute h state;
        d_lastDepsValues := (λ dep : Selector, dep h state) <$> (d :: ds) |},
     compute h state, true).
Proof. intros Hd. unfold derived_call. by rewrite Hd. Qed.

Lemma shallowEqual_refl h a : shallowEqual h a a = true.
Proof. unfold shallowEqual, Object_is. by rewrite bool_decide_eq_true_2. Qed.

(** A plain-object update that names none of the fields the dependencies read
    leaves a [derived] selector on its cached value. *)
Lemma derived_stable_across_unrelated_update funs (h : heap) st lu compute options
    keys (c : DerivedCache) :
  is_Some (h !! getState st) → is_Some (h !! lu) →
  Forall passthrough (middleware st) →
  deps options = Some (field <$> keys) → keys ≠ [] →
  (∀ h' a, default shallowEqual (equals options) h' a a = true) →
  Forall (λ k, own_props h (VRef lu) !! k = None) keys →
  d_lastDepsValues c = (λ k, field k h (VRef (getState st))) <$> keys →
  defined (d_lastResult c) = true →
  let out := setState funs h st (UVal (VRef lu)) in
  derived_call compute options c (o_heap out) (VRef (getState (o_store out)))
  = (c, d_lastResult c, false).
Proof.
  unfold getState. intros [s Hs] [u Hu] Hpass Hdeps Hne Hrefl Hkeys Hlast Hdef.
  destruct (setState_value_passthrough funs h st (VRef lu) Hpass)
    as (calls & _ & ->). simpl in *. rewrite Hs, Hu in *. simpl in *.
  set (h2 := (h ++ [s]) ++ [spread2 (h ++ [s]) (VRef (state st)) (VRef lu)]).
  assert (Hnew : own_props h2 (VRef (S (length h))) = u ∪ s).
  { subst h2. simpl. rewrite lookup_app_r by (rewrite length_app; simpl; lia).
    rewrite length_app. simpl.
    replace (S (length h) - (length h + 1))%nat with 0%nat by lia. simpl.
    unfold spread2. simpl.
    by rewrite !(lookup_app_l_Some _ _ _ _ Hs), !(lookup_app_l_Some _ _ _ _ Hu). }
  assert (Hvals : (λ dep : Selector, dep h2 (VRef (S (length h)))) <$> (field <$> keys)
                  = d_lastDepsValues c).
  { rewrite Hlast, <- list_fmap_compose. apply Forall_fmap_ext.
    eapply Forall_impl; [exact Hkeys|]. intros k Hk. simpl. unfold field, get.
    rewrite Hnew. simpl. rewrite Hs. simpl. by rewrite lookup_union_r. }
  unfold derived_call. rewrite Hdeps.
  destruct keys as [|k ks]; [done|]. csimpl.
  change (field k h2 (VRef (S (length h)))
          :: ((λ dep : Selector, dep h2 (VRef (S (length h)))) <$> (field <$> ks)))
    with ((λ dep : Selector, dep h2 (VRef (S (length h)))) <$> (field <$> (k :: ks))).
  rewrite Hvals.
  assert (Hunch : some_dep_differs (default shallowEqual (equals options) h2)
            (d_lastDepsValues c) (d_lastDepsValues c) = false).
  { apply some_dep_differs_false; [done|].
    apply Forall2_same_length_lookup. split; [done|].
    intros i x y Hx Hy. rewrite Hx in Hy. injection Hy as ->. apply Hrefl. }
  rewrite Hunch, Hdef.
  rewrite bool_decide_eq_false_2; [done|]. rewrite <- Hvals, !length_fmap. done.
Qed.


(** ** Snapshot manager: the cursor invariant *)

Lemma slice0_length {A} (arr : list A) e : (length (slice0 arr e) ≤ length arr)%nat.
Proof. unfold slice0. rewrite length_take. lia. Qed.

Lemma takeSnapshot_max t d h st m :
  maxSnapshots (takeSnapshot t d h st m).2 = maxSnapshots m.
Proof. unfold takeSnapshot; simpl. by case_match. Qed.

Lemma takeSnapshot_valid t d h st m :
  1 ≤ maxSnapshots m →
  Z.of_nat (length (snapshots m)) ≤ maxSnapshots m →
  cursor_valid (takeSnapshot t d h st m).2.
Proof.
  intros Hmax Hlen. unfold takeSnapshot, cursor_valid; simpl.
  set (kept := if currentIndex m <? _ then _ else snapshots m).
  assert (Hk : (length kept ≤ length (snapshots m))%nat).
  { subst kept. case_match; [apply slice0_length|done]. }
  rewrite length_app. simpl.
  destruct (Z.ltb_spec (maxSnapshots m) (Z.of_nat (length kept + 1))); simpl.
  - rewrite length_drop, length_app. simpl. lia.
  - rewrite length_app. simpl. lia.
Qed.

Lemma applySnapshot_valid funs i h st m :
  cursor_valid m →
  cursor_valid (applySnapshot funs i h st m).1
  ∧ maxSnapshots (applySnapshot funs i h st m).1 = maxSnapshots m.
Proof.
  intros [Hc Hl]. unfold applySnapshot.
  destruct (Z.leb_spec 0 i), (Z.ltb_spec i (Z.of_nat (length (snapshots m)))); simpl;
    done.
Qed.

Lemma step_valid funs w op :
  1 ≤ maxSnapshots (w_manager w) → cursor_valid (w_manager w) →
  cursor_valid (w_manager (step funs w op))
  ∧ maxSnapshots (w_manager (step funs w op)) = maxSnapshots (w_manager w).
Proof.
  intros Hmax Hv. destruct op as [t d|i| | | |u]; simpl.
  - pose proof (takeSnapshot_valid t d (w_heap w) (w_store w) _ Hmax (proj2 Hv)) as Hv'.
    pose proof (takeSnapshot_max t d (w_heap w) (w_store w) (w_manager w)) as Hm'.
    by destruct (takeSnapshot t d (w_heap w) (w_store w) (w_manager w)).
  - destruct (applySnapshot_valid funs i (w_heap w) (w_store w) _ Hv) as [Hv' Hm'].
    unfold settled. by destruct (applySnapshot _ _ _ _ _) as [m' [out|]].
  - unfold undo, settled. destruct (canUndo (w_manager w)); simpl; [|done].
    destruct (applySnapshot_valid funs (currentIndex (w_manager w) - 1)
                (w_heap w) (w_store w) _ Hv) as [Hv' Hm'].
    by destruct (applySnapshot _ _ _ _ _) as [m' [out|]].
  - unfold redo, settled. destruct (canRedo (w_manager w)); simpl; [|done].
    destruct (applySnapshot_valid funs (currentIndex (w_manager w) + 1)
                (w_heap w) (w_store w) _ Hv) as [Hv' Hm'].
    by destruct (applySnapshot _ _ _ _ _) as [m' [out|]].
  - split; [|done]. split; simpl; [done|lia].
  - done.
Qed.

Lemma run_valid funs ops w :
  1 ≤ maxSnapshots (w_manager w) → cursor_valid (w_manager w) →
  cursor_valid (w_manager (run funs w ops))
  ∧ maxSnapshots (w_manager (run funs w ops)) = maxSnapshots (w_manager w).
Proof.
  unfold run. revert w. induction ops as [|op ops IH]; intros w Hmax Hv; simpl; [done|].
  destruct (step_valid funs w op Hmax Hv) as [Hv' Hm'].
  destruct (IH (step funs w op)) as [Hv'' Hm'']; [lia|done|].
  split; [done|lia].
Qed.

(** C9. In a snapshot manager created with [maxSnapshots ≥ 1], after
    construction and after every sequence of [takeSnapshot],
    [applySnapshot], [undo], [redo] and [clearSnapshots] operations
    (interleaved with updates of the store), the cursor is a valid index
    whenever the snapshot sequence is not empty and the sequence holds at
    most [maxSnapshots] entries.  A [takeSnapshot] on a full sequence evicts
    the oldest entry and leaves the cursor on the new last entry. *)
Theorem cursor_stays_valid funs now max h st ops :
  1 ≤ max →
  let w := run funs (attach now max h st) ops in
  let m := w_manager w in
  cursor_valid m
  ∧ maxSnapshots m = max
  ∧ snapshots (w_manager (attach now max h st)) ≠ []
  ∧ (∀ t d, let m' := (takeSnapshot t d (w_heap w) (w_store w) m).2 in
       Z.of_nat (length (snapshots m)) = max → currentIndex m = max - 1 →
       snapshots m'
       = drop 1 (snapshots m)
         ++ [{| snap_state := length (w_heap w); timestamp := t; description := d |}]
       ∧ currentIndex m' = max - 1).
Proof.
  intros Hmax w m.
  assert (Hinit : cursor_valid (w_manager (attach now max h st))
                  ∧ maxSnapshots (w_manager (attach now max h st)) = max
                  ∧ snapshots (w_manager (attach now max h st)) ≠ []).
  { unfold attach, createSnapshotManager, takeSnapshot, cursor_valid. simpl.
    change (Z.of_nat 1) with 1. rewrite (proj2 (Z.ltb_ge max 1)) by lia. simpl.
    by split_and!. }
  destruct Hinit as (Hv0 & Hm0 & Hne0).
  destruct (run_valid funs ops (attach now max h st)) as [Hv Hm]; [lia|done|].
  fold w in Hv, Hm. fold m in Hv, Hm. rewrite Hm0 in Hm.
  split_and!; try done.
  intros t d m' Hfull Hend. subst m'. unfold takeSnapshot. simpl.
  rewrite (proj2 (Z.ltb_ge (currentIndex m) _)) by lia.
  rewrite length_app. simpl.
  rewrite (proj2 (Z.ltb_lt (maxSnapshots m) _)) by lia. simpl.
  split; [|lia].
  destruct (snapshots m) as [|s0 rest] eqn:Es; [simpl in Hfull; lia|done].
Qed.

Lemma cursor_stays_valid_witness :
  cursor_valid (w_manager (run quiet (attach 0 2 sample_heap sample_store)
    [TakeSnapshot 1 None; SetState (UVal (VRef 1%nat)); TakeSnapshot 2 None; Undo;
     ClearSnapshots; TakeSnapshot 3 None])).
Proof.
  apply (cursor_stays_valid quiet 0 2 sample_heap sample_store
    [TakeSnapshot 1 None; SetState (UVal (VRef 1%nat)); TakeSnapshot 2 None; Undo;
     ClearSnapshots; TakeSnapshot 3 None]). lia.
Defined.

(** ** Snapshot manager: undo and redo *)

Lemma setState_restore_passthrough funs (h : heap) st snaps i s :
  snaps !! Z.to_nat i = Some s →
  Forall passthrough (middleware st) →
  ∃ calls,
    length calls = length (middleware st) ∧
    setState funs h st (restore snaps i) =
    let h1 := h ++ [own_props h (VRef (state st))] in
    {| o_heap := h1;
       o_store := {| state := snap_state s; listeners := listeners st;
                     middleware := middleware st |};
       o_prev := length h; o_committed := true; o_calls := calls;
       o_notified := (notify funs h1 (listeners st) (snap_state s) (length h)).1;
       o_thrown := (notify funs h1 (listeners st) (snap_state s) (length h)).2 |}.
Proof.
  intros Hs Hpass. rewrite setState_unfold. simpl. unfold produce. rewrite Hs.
  unfold applyMiddleware.
  match goal with |- context [applyMiddleware_from 0 ?m ?h' ?n ?p] =>
    destruct (applyMiddleware_from_passthrough 0 m h' n p Hpass)
      as (calls & Hrun & Hlen)
  end.
  rewrite Hrun. by exists calls.
Qed.

(** After [takeSnapshot] the new snapshot is the last one and the cursor is
    on it. *)
Lemma takeSnapshot_shape t d (h : heap) st m :
  1 ≤ maxSnapshots m →
  ∃ pre,
    takeSnapshot t d h st m =
    (h ++ [own_props h (VRef (getState st))],
     {| snapshots := pre ++ [{| snap_state := length h; timestamp := t;
                                description := d |}];
        currentIndex := Z.of_nat (length pre);
        maxSnapshots := maxSnapshots m |}).
Proof.
  intros Hmax. unfold takeSnapshot. simpl.
  set (kept := if currentIndex m <? _ then _ else snapshots m).
  rewrite length_app. simpl.
  destruct (Z.ltb_spec (maxSnapshots m) (Z.of_nat (length kept + 1))).
  - destruct kept as [|k0 ks]; simpl in *; [lia|].
    exists ks. rewrite drop_0. do 3 f_equal. lia.
  - exists kept. do 3 f_equal. lia.
Qed.

(** A [takeSnapshot] with the cursor on the last snapshot keeps that snapshot
    right before the new one, provided [maxSnapshots ≥ 2]. *)
Lemma takeSnapshot_at_end t d (h : heap) st pre a max :
  2 ≤ max →
  ∃ pre',
    takeSnapshot t d h st
      {| snapshots := pre ++ [a]; currentIndex := Z.of_nat (length pre);
         maxSnapshots := max |} =
    (h ++ [own_props h (VRef (getState st))],
     {| snapshots := pre' ++ [a; {| snap_state := length h; timestamp := t;
                                    description := d |}];
        currentIndex := Z.of_nat (length pre') + 1;
        maxSnapshots := max |}).
Proof.
  intros Hmax. unfold takeSnapshot. simpl.
  rewrite (proj2 (Z.ltb_ge (Z.of_nat (length pre)) _))
    by (rewrite length_app; simpl; lia).
  rewrite !length_app. simpl.
  destruct (Z.ltb_spec max (Z.of_nat (length pre + 1 + 1))).
  - destruct pre as [|p0 ps]; simpl in *; [lia|].
    exists ps. rewrite drop_0, <- app_assoc. simpl. do 3 f_equal. lia.
  - exists pre. rewrite <- app_assoc. simpl. do 3 f_equal. lia.
Qed.

Lemma step_Undo_shape funs (h : heap) st pre a b max :
  Forall passthrough (middleware st) →
  step funs {| w_heap := h; w_store := st;
               w_manager := {| snapshots := pre ++ [a; b];
                               currentIndex := Z.of_nat (length pre) + 1;
                               maxSnapshots := max |} |} Undo
  = {| w_heap := h ++ [own_props h (VRef (state st))];
       w_store := {| state := snap_state a; listeners := listeners st;
                     middleware := middleware st |};
       w_manager := {| snapshots := pre ++ [a; b];
                       currentIndex := Z.of_nat (length pre);
                       maxSnapshots := max |} |}.
Proof.
  intros Hpass. simpl. unfold undo, canUndo, applySnapshot. simpl.
  rewrite (proj2 (Z.ltb_lt 0 _)) by lia.
  replace (Z.of_nat (length pre) + 1 - 1) with (Z.of_nat (length pre)) by lia.
  rewrite (proj2 (Z.leb_le 0 _)) by lia.
  rewrite (proj2 (Z.ltb_lt (Z.of_nat (length pre)) _))
    by (rewrite length_app; simpl; lia).
  simpl. unfold settled. simpl.
  destruct (setState_restore_passthrough funs h st (pre ++ [a; b])
              (Z.of_nat (length pre)) a) as (calls & _ & ->); [|done|done].
  rewrite Nat2Z.id. by rewrite lookup_app_r, Nat.sub_diag.
Qed.

Lemma step_Redo_shape funs (h : heap) st pre a b max :
  Forall passthrough (middleware st) →
  step funs {| w_heap := h; w_store := st;
               w_manager := {| snapshots := pre ++ [a; b];
                               currentIndex := Z.of_nat (length pre);
                               maxSnapshots := max |} |} Redo
  = {| w_heap := h ++ [own_props h (VRef (state st))];
       w_store := {| state := snap_state b; listeners := listeners st;
                     middleware := middleware st |};
       w_manager := {| snapshots := pre ++ [a; b];
                       currentIndex := Z.of_nat (length pre) + 1;
                       maxSnapshots := max |} |}.
Proof.
  intros Hpass. simpl. unfold redo, canRedo, applySnapshot. simpl.
  rewrite (proj2 (Z.ltb_lt (Z.of_nat (length pre)) (_ - 1)))
    by (rewrite length_app; simpl; lia).
  rewrite (proj2 (Z.leb_le 0 _)) by lia.
  rewrite (proj2 (Z.ltb_lt (Z.of_nat (length pre) + 1) _))
    by (rewrite length_app; simpl; lia).
  simpl. unfold settled. simpl.
  destruct (setState_restore_passthrough funs h st (pre ++ [a; b])
              (Z.of_nat (length pre) + 1) b) as (calls & _ & ->); [|done|done].
  replace (Z.to_nat (Z.of_nat (length pre) + 1)) with (length pre + 1)%nat by lia.
  rewrite lookup_app_r by lia. by replace (length pre + 1 - length pre)%nat with 1%nat by lia.
Qed.

Lemma setState_store_fields funs h st u :
  middleware (o_store (setState funs h st u)) = middleware st
  ∧ listeners (o_store (setState funs h st u)) = listeners st.
Proof.
  rewrite setState_unfold. simpl.
  destruct (candidate _ st u) as [h2 [n|e]]; [|done].
  by destruct (applyMiddleware _ h2 n (length h)) as [[h3 calls] [n'|e]].
Qed.

Lemma step_TakeSnapshot funs w t d :
  step funs w (TakeSnapshot t d)
  = {| w_heap := (takeSnapshot t d (w_heap w) (w_store w) (w_manager w)).1;
       w_store := w_store w;
       w_manager := (takeSnapshot t d (w_heap w) (w_store w) (w_manager w)).2 |}.
Proof. simpl. by destruct (takeSnapshot t d (w_heap w) (w_store w) (w_manager w)). Qed.

Lemma step_SetState funs w u :
  step funs w (SetState u)
  = {| w_heap := o_heap (setState funs (w_heap w) (w_store w) u);
       w_store := o_store (setState funs (w_heap w) (w_store w) u);
       w_manager := w_manager w |}.
Proof. done. Qed.

(** C8 (amended). With [maxSnapshots ≥ 2] and a store whose middleware leave
    the proposed state alone, [takeSnapshot(); mutate; takeSnapshot();
    undo()] leaves [getState()] with the properties it had at the first of
    these snapshots, and a following [redo()] leaves it with those of the
    mutated state.  [applySnapshot] with an index in bounds moves the cursor
    and calls [setState] with an updater returning the snapshot's state, so
    the restoration is an ordinary update. *)
Theorem undo_redo_restores funs w t1 t2 d1 d2 mutate :
  2 ≤ maxSnapshots (w_manager w) →
  Forall passthrough (middleware (w_store w)) →
  undo_redo_round_trip funs w t1 t2 d1 d2 mutate
  ∧ (∀ index h st m,
       0 ≤ index < Z.of_nat (length (snapshots m)) →
       applySnapshot funs index h st m
       = ({| snapshots := snapshots m; currentIndex := index;
             maxSnapshots := maxSnapshots m |},
          Some (setState funs h st (restore (snapshots m) index)))).
Proof.
  intros Hmax Hpass. split.
  - unfold undo_redo_round_trip, run. cbn [foldl].
    destruct (takeSnapshot_shape t1 d1 (w_heap w) (w_store w) (w_manager w))
      as [pre1 E1]; [lia|].
    rewrite !step_TakeSnapshot, !step_SetState. cbn [w_heap w_store w_manager].
    rewrite !E1. cbn [fst snd].
    set (h0 := w_heap w). set (st0 := w_store w).
    set (h1 := h0 ++ [own_props h0 (VRef (getState st0))]).
    set (out := setState funs h1 st0 mutate).
    destruct (setState_store_fields funs h1 st0 mutate) as [Hmw _]. fold out in Hmw.
    destruct (takeSnapshot_at_end t2 d2 (o_heap out) (o_store out) pre1
                {| snap_state := length h0; timestamp := t1; description := d1 |}
                (maxSnapshots (w_manager w)) Hmax) as [pre2 E2].
    rewrite !E2. cbn [fst snd].
    rewrite step_Undo_shape by by rewrite Hmw.
    rewrite step_Redo_shape by by (simpl; rewrite Hmw).
    unfold current. cbn [w_heap w_store getState state own_props].
    assert (Hext : extends h1 (o_heap out)).
    { eapply extends_trans; [|apply setState_extends]. apply extends_alloc. }
    assert (HA : o_heap out !! length h0 = Some (own_props h0 (VRef (getState st0)))).
    { eapply extends_lookup; [done|]. subst h1. by rewrite lookup_app_r, Nat.sub_diag. }
    split.
    + rewrite (lookup_app_l_Some _ _ _ _ (lookup_app_l_Some _ _ _ _ HA)). done.
    + rewrite !lookup_app_l by (rewrite ?length_app; simpl; lia).
      by rewrite lookup_app_r, Nat.sub_diag.
  - intros index h st m [Hlo Hhi]. unfold applySnapshot.
    by rewrite (proj2 (Z.leb_le 0 index)), (proj2 (Z.ltb_lt index _)).
Qed.

Lemma undo_redo_restores_witness :
  undo_redo_round_trip quiet
    (attach 0 2 sample_heap
       {| state := 0%nat; listeners := [5%nat]; middleware := [logging; silent] |})
    1 2 None (Some "after") (UVal (VRef 1%nat)).
Proof.
  apply undo_redo_restores.
  - vm_compute. discriminate.
  - change (Forall passthrough [logging; silent]).
    constructor; [|constructor; [|constructor]]; intros h n p; [by right | by left].
Defined.

(** C8 as stated fails when [maxSnapshots] is 1: the second [takeSnapshot]
    evicts the first snapshot, [undo()] finds nothing to go back to, and the
    state stays mutated.  It also fails, with room for 50 snapshots, in a
    store whose middleware adds a field to every proposed state: the
    restored state goes through the pipeline and comes out with that field. *)
Lemma undo_after_eviction_restores_nothing :
  ¬ undo_redo_round_trip quiet (attach 0 1 sample_heap sample_store)
      1 2 None None (UVal (VRef 1%nat))
  ∧ ¬ undo_redo_round_trip quiet
        (attach 0 50 sample_heap
           {| state := 0%nat; listeners := []; middleware := [stamping] |})
        1 2 None None (UVal (VRef 1%nat)).
Proof. split; intros [Hundo _]; vm_compute in Hundo; discriminate Hundo. Qed.

(** ** [createSelector] *)

(** The first call of a selector built by [createSelector] reaches the call
    of the unbound name [selector] and throws. *)
Lemma createSelector_first_call_throws selectorFn equalityFn deps h state :
  createSelector_call None selectorFn equalityFn deps (createSelector_init deps) h state
  = (createSelector_init deps, Throw (ReferenceError "selector")).
Proof. done. Qed.

(** [depsChanged(deps)] compares the [deps] array of the options with itself. *)
Lemma depsChanged_same deps : depsChanged deps deps = false.
Proof.
  unfold depsChanged. rewrite Nat.eqb_refl. simpl.
  apply (some_dep_differs_false (λ d last, Object_is last d) deps deps eq_refl).
  apply Forall2_same_length_lookup. split; [done|].
  intros i x y Hx Hy. rewrite Hx in Hy. injection Hy as ->.
  unfold Object_is. by rewrite bool_decide_eq_true_2.
Qed.

(** Whatever [selector] denotes, once a selector built by [createSelector]
    holds a state and a result, every later call returns that result, on
    any state. *)
Lemma createSelector_never_recomputes selector selectorFn equalityFn deps c h state :
  lastDeps c = deps → truthy (lastState c) = true → defined (lastResult c) = true →
  createSelector_call selector selectorFn equalityFn deps c h state
  = (c, Normal (lastResult c)).
Proof.
  intros Hd Ht Hr. unfold createSelector_call.
  by rewrite Ht, Hr, Hd, depsChanged_same, orb_true_r.
Qed.
(** ** Drafts *)

Lemma own_props_app (h ext : heap) v :
  allocated h v → own_props (h ++ ext) v = own_props h v.
Proof.
  destruct v as [| | | | |l]; try done. simpl. intros [o Ho].
  by rewrite (lookup_app_l_Some _ _ _ _ Ho), Ho.
Qed.

Lemma own_props_extends (h h' : heap) v :
  extends h h' → allocated h v → own_props h' v = own_props h v.
Proof. intros [ext ->]. apply own_props_app. Qed.

(** A draft that is not modified holds the contents of its base; the
    contents of a draft are what its writes make of the base; and a draft
    is left unmodified exactly by writes that change nothing. *)
Lemma draft_writes base ws (modified : bool) (copy : obj) :
  (modified = false → copy = base) →
  let r := foldl (draft_write base) (modified, copy) ws in
  r.2 = written copy ws
  ∧ (r.1 = false → r.2 = base)
  ∧ (r.1 = false ↔ modified = false ∧ Forall (changes_nothing base) ws).
Proof.
  revert modified copy. induction ws as [|w ws IH]; intros modified copy Hinv; simpl.
  - split_and!; [done|done|]. split; [by intros ->|by intros [-> _]].
  - destruct w as [key v|key]; simpl.
    + destruct (negb modified && bool_decide (base !! key = Some v)) eqn:E.
      * apply andb_true_iff in E as [Hm%negb_true_iff Hv%bool_decide_eq_true].
        subst modified. rewrite (Hinv eq_refl) in *.
        destruct (IH false base (λ _, eq_refl)) as (Hc & Hb & Hm).
        rewrite insert_id by done. split_and!; [done|done|].
        rewrite Hm, Forall_cons. simpl.
        split; [by intros [_ ?]|by intros [_ [_ ?]]].
      * destruct (IH true (<[key:=v]> copy)) as (Hc & Hb & Hm); [done|].
        split_and!; [done|done|].
        rewrite Hm, Forall_cons. simpl. split; [by intros [? _]|].
        intros [-> [Hv _]]. simpl in E. by rewrite bool_decide_eq_true_2 in E.
    + destruct (modified || bool_decide (is_Some (base !! key))) eqn:E.
      * destruct (IH true (delete key copy)) as (Hc & Hb & Hm); [done|].
        split_and!; [done|done|].
        rewrite Hm, Forall_cons. simpl. split; [by intros [? _]|].
        intros [-> [Hv _]]. simpl in E. apply bool_decide_eq_true in E.
        rewrite Hv in E. by destruct E.
      * apply orb_false_iff in E as [-> Hk%bool_decide_eq_false].
        assert (Hnone : base !! key = None).
        { destruct (base !! key) eqn:Ek; [|done]. destruct Hk. by eexists. }
        rewrite (Hinv eq_refl) in *. rewrite delete_id by done.
        destruct (IH false base (λ _, eq_refl)) as (Hc & Hb & Hm).
        split_and!; [done|done|].
        rewrite Hm, Forall_cons. simpl.
        split; [by intros [_ ?]|by intros [_ [_ ?]]].
Qed.

Lemma write_all_spec base ws :
  (write_all base ws).2 = written base ws
  ∧ ((write_all base ws).1 = false → written base ws = base)
  ∧ ((write_all base ws).1 = false ↔ Forall (changes_nothing base) ws).
Proof.
  destruct (draft_writes base ws false base (λ _, eq_refl)) as (Hc & Hb & Hm).
  unfold write_all. split_and!; [done| |].
  - intros Hu. rewrite <- Hc. by apply Hb.
  - rewrite Hm. split; [by intros [_ ?]|done].
Qed.


(** ** More on the store core *)

Lemma notify_prefix funs h ls s p :
  ∃ k, n_listener <$> (notify funs h ls s p).1 = take k ls.
Proof.
  induction ls as [|f rest [k IH]]; simpl; [by exists 0%nat|].
  destruct (funs f h s p); simpl; [by exists 1%nat|].
  destruct (notify funs h rest s p) as [ns r]. simpl in *.
  exists (S k). csimpl. by rewrite IH.
Qed.

(** The listeners a [setState] call invokes are a prefix of the listener set. *)
Lemma setState_notified_prefix funs h st u :
  ∃ k, n_listener <$> o_notified (setState funs h st u) = take k (listeners st).
Proof.
  rewrite setState_unfold. simpl.
  destruct (candidate _ st u) as [h2 [n|e]]; [|by exists 0%nat].
  destruct (applyMiddleware _ h2 n (length h)) as [[h3 calls] [n'|e]];
    [|by exists 0%nat].
  simpl. apply notify_prefix.
Qed.

(** X1. After [unsubscribe()], no [setState] call invokes the listener again,
    however often it had been subscribed; the other listeners stay, in
    their order, and a call that returns normally has invoked exactly
    them. *)
Theorem unsubscribed_listener_is_never_notified funs h st f u :
  let out := setState funs h (unsubscribe f st) u in
  (f ∉ n_listener <$> o_notified out)
  ∧ listeners (unsubscribe f (subscribe f (subscribe f st)))
    = listeners (unsubscribe f st)
  ∧ (∀ g, g ≠ f → listeners (unsubscribe f (subscribe g st))
                  = listeners (subscribe g (unsubscribe f st)))
  ∧ match o_thrown out with
    | None => n_listener <$> o_notified out = filter (λ g, g ≠ f) (listeners st)
    | Some _ => True
    end.
Proof.
  intros out. split_and!.
  - destruct (setState_notified_prefix funs h (unsubscribe f st) u) as [k Hk].
    fold out in Hk. rewrite Hk. intros Hin%subseteq_take. simpl in Hin.
    unfold set_delete in Hin. apply list_elem_of_filter in Hin as [Hne _]. done.
  - simpl. unfold set_delete, set_add.
    destruct (decide (f ∈ listeners st)) as [Hin|Hin].
    + by rewrite decide_True.
    + rewrite decide_True by (apply elem_of_app; right; constructor).
      rewrite filter_app, (filter_cons_False _ f []) by (by intros Hne).
      by rewrite filter_nil, app_nil_r.
  - intros g Hg. simpl. unfold set_delete, set_add.
    destruct (decide (g ∈ listeners st)) as [Hin|Hin].
    + rewrite decide_True; [done|]. apply list_elem_of_filter. by split.
    + rewrite decide_False.
      * by rewrite filter_app, (filter_cons_True _ g []), filter_nil.
      * rewrite list_elem_of_filter. by intros [_ ?].
  - destruct (o_thrown out) eqn:Ethrown; [done|].
    subst out. rewrite setState_unfold in *. simpl in *.
    destruct (candidate _ _ u) as [h2 [n|e]]; [|done].
    destruct (applyMiddleware _ h2 n (length h)) as [[h3 calls] [n'|e]]; [|done].
    simpl in *.
    rewrite (notify_quiet _ _ _ _ _ (notify_returns _ _ _ _ _ Ethrown)). simpl.
    by rewrite fmap_listener_notification.
Qed.

Lemma applyMiddleware_from_throw i (pre : list Middleware) (m : Middleware)
    (post : list Middleware) h n p e :
  Forall passthrough pre → m h n p = MwThrow e →
  ∃ calls, applyMiddleware_from i (pre ++ m :: post) h n p = (h, calls, Throw e)
           ∧ length calls = S (length pre).
Proof.
  intros Hpre Hm. revert i. induction Hpre as [|m0 pre Hm0 _ IH]; intros i; simpl.
  - rewrite Hm. by eexists.
  - destruct (IH (S i)) as (calls & Hrun & Hlen).
    destruct (Hm0 h n p) as [-> | ->]; rewrite Hrun;
      (eexists; split; [reflexivity | simpl; lia]).
Qed.

(** X2. When a middleware throws, [setState] commits nothing: the exception
    reaches the caller, [getState()] still returns the same object with the
    same properties, no listener is notified, and the middleware registered
    after the throwing one are not invoked. *)
Theorem middleware_error_aborts_update funs (h : heap) st u h2 cand
    (pre : list Middleware) (m : Middleware) (post : list Middleware) e s :
  h !! getState st = Some s →
  candidate (h ++ [own_props h (VRef (getState st))]) st u = (h2, Normal cand) →
  middleware st = pre ++ m :: post →
  Forall passthrough pre →
  m h2 cand (length h) = MwThrow e →
  let out := setState funs h st u in
  o_thrown out = Some e
  ∧ o_store out = st
  ∧ o_notified out = []
  ∧ length (o_calls out) = S (length pre)
  ∧ o_heap out !! getState st = Some s.
Proof.
  intros Hs Hcand Hmw Hpre Hm out.
  assert (Hkeep : o_heap out !! getState st = Some s) by by apply setState_preserves.
  cut (o_thrown out = Some e ∧ o_store out = st ∧ o_notified out = []
       ∧ length (o_calls out) = S (length pre)); [by intros (?&?&?&?)|].
  clear Hkeep. subst out. rewrite setState_unfold. unfold getState in *. simpl in *.
  rewrite Hcand. simpl. rewrite Hmw. unfold applyMiddleware.
  pose proof (applyMiddleware_from_throw 0 pre m post h2 cand (length h) e Hpre Hm)
    as (calls & Hrun & Hlen).
  rewrite Hrun. simpl. by split_and!.
Qed.

Lemma middleware_error_aborts_update_witness :
  let out := setState quiet sample_heap
    {| state := 0%nat; listeners := [4%nat];
       middleware := [logging; throwing (Thrown (VStr "no")); stamping] |}
    (UVal (VRef 1%nat)) in
  o_thrown out = Some (Thrown (VStr "no")) ∧ getState (o_store out) = 0%nat.
Proof.
  destruct (middleware_error_aborts_update quiet sample_heap
    {| state := 0%nat; listeners := [4%nat];
       middleware := [logging; throwing (Thrown (VStr "no")); stamping] |}
    (UVal (VRef 1%nat)) _ _ [logging] (throwing (Thrown (VStr "no"))) [stamping]
    (Thrown (VStr "no")) count0 eq_refl eq_refl eq_refl)
    as (Hthrown & Hstore & _).
  - constructor; [|constructor]. intros h n p. by right.
  - reflexivity.
  - split; [exact Hthrown | by rewrite Hstore].
Defined.

(** What a plain-object update leaves in a store with pass-through middleware. *)
Lemma setState_plain_result funs (h : heap) st (l : loc) (s u : obj) :
  h !! state st = Some s → h !! l = Some u →
  Forall passthrough (middleware st) →
  let out := setState funs h st (UVal (VRef l)) in
  o_heap out !! state (o_store out) = Some (u ∪ s)
  ∧ extends h (o_heap out)
  ∧ middleware (o_store out) = middleware st
  ∧ listeners (o_store out) = listeners st
  ∧ state (o_store out) = S (length h).
Proof.
  intros Hs Hu Hpass out.
  assert (Hext : extends h (o_heap out)).
  { eapply extends_trans; [apply extends_alloc|apply setState_extends]. }
  subst out.
  destruct (setState_value_passthrough funs h st (VRef l) Hpass) as (calls & _ & E).
  rewrite E in *. simpl. split_and!; try done.
  rewrite Hs. simpl.
  rewrite lookup_app_r by (rewrite length_app; simpl; lia).
  rewrite length_app. simpl.
  replace (S (length h) - (length h + 1))%nat with 0%nat by lia. simpl.
  unfold spread2. simpl.
  by rewrite !(lookup_app_l_Some _ _ _ _ Hs), !(lookup_app_l_Some _ _ _ _ Hu).
Qed.

(** X3. In a store whose middleware leave the proposed state alone, two
    plain-object updates in a row leave the state with the same properties
    as the single update with [{ ...u1, ...u2 }]. *)
Theorem plain_updates_compose funs (h : heap) st (l1 l2 l12 : loc) (s u1 u2 : obj) :
  h !! getState st = Some s →
  h !! l1 = Some u1 → h !! l2 = Some u2 → h !! l12 = Some (u2 ∪ u1) →
  Forall passthrough (middleware st) →
  let out1 := setState funs h st (UVal (VRef l1)) in
  let out2 := setState funs (o_heap out1) (o_store out1) (UVal (VRef l2)) in
  let out12 := setState funs h st (UVal (VRef l12)) in
  own_props (o_heap out2) (VRef (getState (o_store out2)))
  = own_props (o_heap out12) (VRef (getState (o_store out12)))
  ∧ own_props (o_heap out2) (VRef (getState (o_store out2))) = u2 ∪ (u1 ∪ s).
Proof.
  intros Hs H1 H2 H12 Hpass out1 out2 out12. unfold getState in *.
  destruct (setState_plain_result funs h st l1 s u1 Hs H1 Hpass)
    as (Hst1 & Hext1 & Hmw1 & _). fold out1 in Hst1, Hext1, Hmw1.
  destruct (setState_plain_result funs h st l12 s (u2 ∪ u1) Hs H12 Hpass)
    as (Hst12 & _). fold out12 in Hst12.
  destruct (setState_plain_result funs (o_heap out1) (o_store out1) l2 (u1 ∪ s) u2
              Hst1 (extends_lookup _ _ _ _ Hext1 H2)) as (Hst2 & _).
  { by rewrite Hmw1. }
  fold out2 in Hst2. simpl. rewrite Hst2, Hst12. simpl.
  split; [|done]. by rewrite (assoc_L (∪)).
Qed.

Lemma plain_updates_compose_witness :
  let h : heap := ab_heap ++ [ {["a" := VNum 7]}; {["b" := VNum 3; "a" := VNum 7]} ] in
  let out1 := setState quiet h sample_store (UVal (VRef 2%nat)) in
  let out2 := setState quiet (o_heap out1) (o_store out1) (UVal (VRef 1%nat)) in
  own_props (o_heap out2) (VRef (getState (o_store out2)))
  = {["b" := VNum 3]} ∪ ({["a" := VNum 7]} ∪ {["a" := VNum 1; "b" := VNum 2]}).
Proof.
  intros h out1 out2.
  apply (plain_updates_compose quiet h sample_store 2%nat 1%nat 3%nat
           {["a" := VNum 1; "b" := VNum 2]} {["a" := VNum 7]} {["b" := VNum 3]});
    try reflexivity.
  constructor.
Defined.

(** X4. What a function updater makes of the state, in a store whose
    middleware leave the proposed state alone (immer's [produce] as
    modelled): an updater that returns an object makes that object the
    state, without merging the previous fields into it; one that writes to
    the draft commits a state with the contents the writes make of the
    previous ones, in a new object as soon as one write changes something
    and in the very same state object when every write stores the value the
    field already holds, and the previous state object keeps its
    properties; one that does nothing commits the very same state object;
    one that throws commits nothing, runs no middleware and notifies
    nobody. *)
Theorem function_updater_outcomes funs (h : heap) st recipe (s : obj) :
  h !! getState st = Some s →
  Forall passthrough (middleware st) →
  let out := setState funs h st (UFun recipe) in
  match recipe (h ++ [s]) (getState st) with
  | RUntouched =>
    getState (o_store out) = getState st ∧ o_committed out = true
  | RMutated writes =>
    o_heap out !! getState (o_store out) = Some (written s writes)
    ∧ o_heap out !! getState st = Some s
    ∧ (getState (o_store out) = getState st ↔ Forall (changes_nothing s) writes)
    ∧ o_committed out = true
  | RReturn l => getState (o_store out) = l ∧ o_committed out = true
  | RFresh o =>
    o_heap out !! getState (o_store out) = Some o
    ∧ getState (o_store out) ≠ getState st
  | RThrow e =>
    o_thrown out = Some e ∧ o_store out = st
    ∧ o_notified out = [] ∧ o_calls out = []
  end.
Proof.
  intros Hs Hpass out.
  pose proof (setState_preserves funs h st (UFun recipe) _ _ Hs) as Hkeep.
  fold out in Hkeep. unfold getState in *.
  subst out. rewrite setState_unfold in *. simpl in *. rewrite Hs in *. simpl in *.
  unfold produce in *. assert (Hlt := lookup_lt_Some _ _ _ Hs).
  destruct (recipe (h ++ [s]) (state st)) as [|ws|l|o|e]; simpl in *.
  2: { clear Hkeep. rewrite (lookup_app_l_Some _ _ _ _ Hs). simpl.
       destruct (write_all_spec s ws) as (Hc & Hb & Hm).
       destruct (write_all s ws) as [[] copy]; simpl in *; unfold applyMiddleware in *;
         match goal with |- context [applyMiddleware_from 0 ?m ?h' ?n ?p] =>
           destruct (applyMiddleware_from_passthrough 0 m h' n p Hpass)
             as (calls & Hrun & _); rewrite Hrun in *; simpl in *
         end.
       - split_and!; [| | |done].
         + rewrite lookup_app_r, length_app, Nat.sub_diag by done. simpl. by rewrite Hc.
         + by do 2 apply lookup_app_l_Some.
         + rewrite length_app. simpl. split; [lia|]. intros Hall.
           by apply Hm in Hall.
       - assert (Hsame : written s ws = s) by by apply Hb.
         split_and!; [| | |done].
         + rewrite Hsame. by apply lookup_app_l_Some.
         + by apply lookup_app_l_Some.
         + split; [intros _; by apply Hm|done]. }
  all: try done; unfold applyMiddleware in *;
    match goal with |- context [applyMiddleware_from 0 ?m ?h' ?n ?p] =>
      destruct (applyMiddleware_from_passthrough 0 m h' n p Hpass)
        as (calls & Hrun & _); rewrite Hrun in *; simpl in *
    end; try done.
  split; [|rewrite length_app; simpl; lia].
  by rewrite lookup_app_r, length_app, Nat.sub_diag by done.
Qed.

Lemma function_updater_outcomes_witness :
  let out := setState quiet sample_heap sample_store
               (UFun (λ _ _, RMutated [WSet "count" (VNum 0)])) in
  o_heap out !! getState (o_store out) = Some (written count0 [WSet "count" (VNum 0)])
  ∧ o_heap out !! getState sample_store = Some count0
  ∧ (getState (o_store out) = getState sample_store
     ↔ Forall (changes_nothing count0) [WSet "count" (VNum 0)])
  ∧ o_committed out = true.
Proof.
  exact (function_updater_outcomes quiet sample_heap sample_store
           (λ _ _, RMutated [WSet "count" (VNum 0)]) _ eq_refl (Forall_nil_2 _)).
Defined.

(** ** Middleware combinators *)

Lemma combineMiddleware_thrown (ms : list Middleware) (h : heap) e p :
  foldl (λ (acc : heap * completion loc) (middleware : Middleware),
      match acc with
      | (h', Normal state) =>
        match middleware h' state p with
        | MwUndefined => (h', Normal state)
        | MwReturn result => (h', Normal result)
        | MwFresh o => let '(h'', result) := alloc h' o in (h'', Normal result)
        | MwThrow e => (h', Throw e)
        end
      | (h', Throw e) => (h', Throw e)
      end) (h, Throw e) ms = (h, Throw e).
Proof. induction ms as [|m ms IH]; simpl; [done|apply IH]. Qed.

Lemma combineMiddleware_from i (ms : list Middleware) h n p :
  combineMiddleware ms h n p
  = ((applyMiddleware_from i ms h n p).1.1, (applyMiddleware_from i ms h n p).2).
Proof.
  unfold combineMiddleware. revert i h n.
  induction ms as [|m ms IH]; intros i h n; simpl; [done|].
  destruct (m h n p) as [|l|o|e]; simpl.
  - rewrite (IH (S i)). by destruct (applyMiddleware_from (S i) ms h n p) as [[??]?].
  - rewrite (IH (S i)). by destruct (applyMiddleware_from (S i) ms h l p) as [[??]?].
  - rewrite (IH (S i)).
    by destruct (applyMiddleware_from (S i) ms (h ++ [o]) (length h) p) as [[??]?].
  - apply combineMiddleware_thrown.
Qed.

(** X5. The single middleware [combineMiddleware(m1, ..., mk)] returns, or
    throws, exactly what the store's own pipeline over [m1, ..., mk]
    produces from the same [nextState] and [prevState]; combining two
    lists runs the second on what the first produced. *)
Theorem combineMiddleware_is_the_pipeline (ms ms' : list Middleware) h n p :
  combineMiddleware ms h n p
  = ((applyMiddleware ms h n p).1.1, (applyMiddleware ms h n p).2)
  ∧ combineMiddleware (ms ++ ms') h n p
    = match combineMiddleware ms h n p with
      | (h', Normal n') => combineMiddleware ms' h' n' p
      | (h', Throw e) => (h', Throw e)
      end.
Proof.
  split; [apply combineMiddleware_from|].
  unfold combineMiddleware. rewrite foldl_app.
  destruct (foldl _ (h, Normal n) ms) as [h' [n'|e]]; [done|].
  apply combineMiddleware_thrown.
Qed.

Lemma existsb_false_Forall {A} (f : A → bool) (l : list A) :
  Forall (λ x, f x = false) l → existsb f l = false.
Proof. induction 1 as [|x l Hx _ IH]; simpl; [done|]. by rewrite Hx, IH. Qed.

(** X6. A store whose only middleware is [createScopedMiddleware(paths, m)]
    commits the shallow merge of every plain-object update that leaves the
    values under [paths] as they were, whatever [m] is: [m] is not
    consulted for such an update. *)
Theorem scoped_middleware_ignores_other_fields funs (h : heap) st (lu : loc)
    (s u : obj) paths m :
  h !! getState st = Some s → h !! lu = Some u →
  middleware st = [createScopedMiddleware paths m] →
  Forall (λ path, get (u ∪ s) path = get s path) paths →
  let out := setState funs h st (UVal (VRef lu)) in
  o_committed out = true
  ∧ o_heap out !! getState (o_store out) = Some (u ∪ s)
  ∧ o_calls out = [{| mw_index := 0; mw_next := S (length h); mw_prev := length h |}]
  ∧ commits_shallow_merge funs h st lu.
Proof.
  intros Hs Hu Hmw Hpaths out. unfold getState in *.
  assert (Hlt := lookup_lt_Some _ _ _ Hs).
  set (h2 := (h ++ [s]) ++ [u ∪ s]).
  assert (Hn : own_props h2 (VRef (S (length h))) = u ∪ s).
  { subst h2. simpl. rewrite lookup_app_r by (rewrite length_app; simpl; lia).
    rewrite length_app. simpl.
    by replace (S (length h) - (length h + 1))%nat with 0%nat by lia. }
  assert (Hp : own_props h2 (VRef (length h)) = s).
  { subst h2. simpl. rewrite lookup_app_l by (rewrite length_app; simpl; lia).
    by rewrite lookup_app_r, Nat.sub_diag. }
  assert (Hscoped : createScopedMiddleware paths m h2 (S (length h)) (length h)
                    = MwReturn (S (length h))).
  { unfold createScopedMiddleware. rewrite Hn, Hp.
    rewrite existsb_false_Forall; [done|].
    eapply Forall_impl; [exact Hpaths|]. intros path Hpath. simpl.
    unfold strict_ne. by rewrite bool_decide_eq_true_2. }
  assert (Hout : o_committed out = true
                 ∧ o_heap out = h2
                 ∧ state (o_store out) = S (length h)
                 ∧ o_calls out
                   = [{| mw_index := 0; mw_next := S (length h); mw_prev := length h |}]).
  { subst out. rewrite setState_unfold. simpl. rewrite Hmw, Hs. simpl.
    unfold spread2. simpl. unfold loc in *.
    rewrite (lookup_app_l_Some h [s] _ _ Hs), (lookup_app_l_Some h [s] _ _ Hu). simpl.
    unfold applyMiddleware. simpl. fold h2.
    replace (length (h ++ [s])) with (S (length h)) by (rewrite length_app; simpl; lia).
    by rewrite Hscoped. }
  destruct Hout as (Hc & Hh & Hst & Hcalls).
  assert (Hnew : o_heap out !! state (o_store out) = Some (u ∪ s)).
  { rewrite Hh, Hst. simpl in Hn. 
    subst h2. rewrite lookup_app_r by (rewrite length_app; simpl; lia).
    rewrite length_app. simpl.
    by replace (S (length h) - (length h + 1))%nat with 0%nat by lia. }
  split_and!; try done.
  unfold commits_shallow_merge, getState. fold out. simpl.
  rewrite Hnew, Hs, Hu. simpl. split_and!.
  - intros k v Hk. by apply lookup_union_Some_l.
  - intros k Hk. by apply lookup_union_r.
  - rewrite Hh. subst h2. unfold loc in *.
    by rewrite (lookup_app_l_Some _ [u ∪ s] _ _ (lookup_app_l_Some _ [s] _ _ Hs)).
Qed.

Lemma scoped_middleware_ignores_other_fields_witness :
  o_committed (setState quiet ab_heap
    {| state := 0%nat; listeners := [];
       middleware := [createScopedMiddleware ["a"] (throwing (Thrown VNull))] |}
    (UVal (VRef 1%nat))) = true.
Proof.
  apply (scoped_middleware_ignores_other_fields quiet ab_heap
    {| state := 0%nat; listeners := [];
       middleware := [createScopedMiddleware ["a"] (throwing (Thrown VNull))] |}
    1%nat {["a" := VNum 1; "b" := VNum 2]} {["b" := VNum 3]} ["a"]
    (throwing (Thrown VNull))); try reflexivity.
  by repeat constructor.
Defined.

(** ** More on the selectors *)

Lemma keys_elem_of (m : obj) (k : string) :
  k ∈ (map_to_list m).*1 ↔ is_Some (m !! k).
Proof.
  rewrite list_elem_of_fmap. split.
  - intros ([k' v] & -> & Hin%elem_of_map_to_list). by eexists.
  - intros [v Hv]. exists (k, v). split; [done|]. by apply elem_of_map_to_list.
Qed.

(** X7. [shallowEqual(a, b)] holds exactly when [a] and [b] are the same value
    or are two objects with the same own properties, each holding the same
    value ([Object.is]) in both; nested objects are compared by reference. *)
Theorem shallowEqual_spec h a b :
  shallowEqual h a b = true
  ↔ a = b ∨ (is_object a = true ∧ is_object b = true ∧ own_props h a = own_props h b).
Proof.
  unfold shallowEqual, Object_is.
  destruct (decide (a = b)) as [->|Hne].
  { rewrite bool_decide_eq_true_2 by done. split; [by left|done]. }
  rewrite bool_decide_eq_false_2 by done.
  destruct (is_object a) eqn:Ea, (is_object b) eqn:Eb; simpl;
    try (split; [done|by intros [?|(?&?&?)]]).
  rewrite !length_fmap, !length_map_to_list.
  destruct (Nat.eqb_spec (size (own_props h a)) (size (own_props h b))) as [Hsz|Hsz];
    simpl.
  - rewrite forallb_forall. split.
    + intros Hall. right. split_and!; try done.
      apply map_subseteq_size_eq; [|lia].
      apply map_subseteq_spec. intros k v Hk.
      assert (Hin : In k (map_to_list (own_props h a)).*1).
      { apply list_elem_of_In, keys_elem_of. by eexists. }
      apply Hall, andb_true_iff in Hin as [[v' Hb]%bool_decide_eq_true Heq].
      apply bool_decide_eq_true in Heq. unfold get in Heq.
      rewrite Hk, Hb in Heq. simpl in Heq. by rewrite Hb, <- Heq.
    + intros [?|(_ & _ & Heq)]; [done|]. intros k Hin%list_elem_of_In%keys_elem_of.
      rewrite <- Heq. rewrite bool_decide_eq_true_2 by done.
      by rewrite bool_decide_eq_true_2.
  - split; [done|]. intros [?|(_ & _ & Heq)]; [done|]. by rewrite Heq in Hsz.
Qed.

Lemma shallowEqual_spec_witness :
  shallowEqual [count0; count0] (VRef 0%nat) (VRef 1%nat) = true.
Proof.
  apply (proj2 (shallowEqual_spec [count0; count0] (VRef 0%nat) (VRef 1%nat))).
  right. by split_and!.
Defined.

(** X8. A selector built by [derived] without dependencies is memoised on the
    identity of the state object: called again on the same state it returns
    the cached value without computing, and after any non-function update
    committed by a store whose middleware leave the proposed state alone,
    even one that changes no field, it computes again. *)
Theorem derived_memoises_on_state_identity funs (h : heap) st compute options v (s : obj) :
  h !! getState st = Some s →
  Forall passthrough (middleware st) →
  deps options = None ∨ deps options = Some [] →
  defined (compute h (VRef (getState st))) = true →
  let c1 := (derived_call compute options derived_init h (VRef (getState st))).1.1 in
  let out := setState funs h st (UVal v) in
  derived_call compute options derived_init h (VRef (getState st))
  = (c1, compute h (VRef (getState st)), true)
  ∧ derived_call compute options c1 h (VRef (getState st))
    = (c1, compute h (VRef (getState st)), false)
  ∧ derived_call compute options c1 (o_heap out) (VRef (getState (o_store out)))
    = ({| d_lastState := VRef (getState (o_store out));
          d_lastResult := compute (o_heap out) (VRef (getState (o_store out)));
          d_lastDepsValues := [] |},
       compute (o_heap out) (VRef (getState (o_store out))), true).
Proof.
  intros Hs Hpass Hdeps Hdef c1 out.
  assert (Hlt := lookup_lt_Some _ _ _ Hs).
  assert (Hnew : getState (o_store out) = S (length h)).
  { subst out. by destruct (setState_value_passthrough funs h st v Hpass)
      as (calls & _ & ->). }
  assert (Hc1 : c1 = {| d_lastState := VRef (getState st);
                        d_lastResult := compute h (VRef (getState st));
                        d_lastDepsValues := [] |}).
  { subst c1. unfold derived_call. by destruct Hdeps as [-> | ->]. }
  rewrite Hnew. rewrite Hc1. unfold derived_call.
  destruct Hdeps as [-> | ->]; simpl; rewrite Hdef;
    rewrite bool_decide_eq_true_2 by done; simpl;
    (rewrite bool_decide_eq_false_2 by (unfold getState in *; intros [=]; lia));
    done.
Qed.

Lemma derived_memoises_on_state_identity_witness :
  let c1 := (derived_call (field "a") {| equals := None; deps := None |}
               derived_init ab_heap (VRef 0%nat)).1.1 in
  derived_call (field "a") {| equals := None; deps := None |} c1 ab_heap (VRef 0%nat)
  = (c1, VNum 1, false).
Proof.
  intros c1.
  destruct (derived_memoises_on_state_identity quiet ab_heap sample_store (field "a")
              {| equals := None; deps := None |} (VRef 1%nat) _ eq_refl
              (Forall_nil_2 _) (or_introl eq_refl) eq_refl) as (_ & Hsame & _).
  exact Hsame.
Defined.

(** Values that [shallowEqual] does not tell apart have the same own
    properties. *)
Lemma shallowEqual_own_props h a b :
  shallowEqual h a b = true → own_props h a = own_props h b.
Proof.
  unfold shallowEqual, Object_is.
  destruct (decide (a = b)) as [->|Hne]; [done|].
  rewrite bool_decide_eq_false_2 by done.
  destruct (is_object a) eqn:Ea, (is_object b) eqn:Eb; simpl; try done.
  rewrite !length_fmap, !length_map_to_list.
  destruct (Nat.eqb_spec (size (own_props h a)) (size (own_props h b))) as [Hsz|Hsz];
    simpl; [|done].
  rewrite forallb_forall. intros Hall.
  apply map_subseteq_size_eq; [|lia].
  apply map_subseteq_spec. intros k v Hk.
  assert (Hin : In k (map_to_list (own_props h a)).*1).
  { apply list_elem_of_In, keys_elem_of. by eexists. }
  apply Hall, andb_true_iff in Hin as [[v' Hb]%bool_decide_eq_true Heq].
  apply bool_decide_eq_true in Heq. unfold get in Heq.
  rewrite Hk, Hb in Heq. simpl in Heq. by rewrite Hb, <- Heq.
Qed.

Lemma computedWith_call_sound deps compute equals later c h state :
  respects (default shallowEqual equals) compute →
  computed_cache_ok deps compute (h :: later) c →
  Forall (extends h) later →
  Forall (allocated h) ((λ dep : Selector, dep h state) <$> deps) →
  (computedWith_call deps compute equals c h state).1.2
    = compute h ((λ dep : Selector, dep h state) <$> deps)
  ∧ computed_cache_ok deps compute later
      (computedWith_call deps compute equals c h state).1.1.
Proof.
  intros Hresp (Hres & Hlen & Hnil) Hlater Halloc.
  assert (Hold : d_lastResult c = VUndef
                 ∨ ∃ h0, extends h0 h ∧ Forall (extends h0) later
                         ∧ Forall (allocated h0) (d_lastDepsValues c)
                         ∧ d_lastResult c = compute h0 (d_lastDepsValues c)).
  { destruct Hres as [?|(h0 & Hext & Ha & Hr)]; [by left|right].
    apply Forall_cons in Hext as [? ?]. by exists h0. }
  clear Hres.
  unfold computedWith_call, computedWith, derived_call. simpl.
  destruct deps as [|d ds].
  - pose proof (Hnil eq_refl) as Hn.
    destruct (bool_decide (d_lastState c = state) && defined (d_lastResult c)) eqn:E; simpl.
    + apply andb_true_iff in E as [_ Hdef]. unfold defined in Hdef.
      apply negb_true_iff, bool_decide_eq_false in Hdef.
      destruct Hold as [?|(h0 & Hh0 & Hl0 & Ha0 & Hr0)]; [done|].
      split.
      * rewrite Hr0, Hn. symmetry. apply Hresp; [done|done|constructor].
      * split_and!; [right; by exists h0|by left|done].
    + split; [done|]. split_and!; simpl; [|by left|done].
      right. exists h. rewrite Hn. by split_and!.
  - set (depsValues := (λ dep : Selector, dep h state) <$> d :: ds) in *.
    change (d h state :: ((λ dep : Selector, dep h state) <$> ds)) with depsValues.
    destruct (negb (bool_decide (length (d_lastDepsValues c) = 0%nat)
                    || some_dep_differs (default shallowEqual equals h) depsValues
                         (d_lastDepsValues c))
              && defined (d_lastResult c)) eqn:E; simpl.
    + apply andb_true_iff in E as [Hsame Hdef].
      apply negb_true_iff, orb_false_iff in Hsame as [Hn0 Hsame].
      apply bool_decide_eq_false in Hn0.
      unfold defined in Hdef. apply negb_true_iff, bool_decide_eq_false in Hdef.
      destruct Hold as [?|(h0 & Hh0 & Hl0 & Ha0 & Hr0)]; [done|].
      destruct Hlen as [Hl|Hl]; [by rewrite Hl in Hn0|].
      apply some_dep_differs_false in Hsame;
        [|subst depsValues; by rewrite length_fmap].
      split; [|split_and!; [right; by exists h0|by right|done]].
      rewrite Hr0. symmetry. by apply Hresp.
    + split; [done|]. split_and!; simpl; [| |done].
      * right. exists h. by split_and!.
      * right. subst depsValues. by rewrite length_fmap.
Qed.

Lemma computedWith_run_sound deps compute equals inputs c :
  respects (default shallowEqual equals) compute →
  in_time inputs → deps_allocated deps inputs →
  computed_cache_ok deps compute inputs.*1 c →
  (selector_run (computedWith_call deps compute equals) c inputs).2.*1
  = (λ '(h, state), compute h ((λ dep : Selector, dep h state) <$> deps)) <$> inputs.
Proof.
  intros Hresp. revert c.
  induction inputs as [|[h state] rest IH]; intros c Htime Halloc Hc; [done|].
  destruct Htime as [Hlater Htime]. apply Forall_cons in Halloc as [Ha Halloc].
  assert (Hlater' : Forall (extends h) rest.*1).
  { apply Forall_fmap. eapply Forall_impl; [exact Hlater|]. by intros [h' s']. }
  simpl in Hc.
  destruct (computedWith_call_sound deps compute equals rest.*1 c h state
              Hresp Hc Hlater' Ha) as [Hr Hc'].
  simpl.
  destruct (computedWith_call deps compute equals c h state) as [[c' r] i].
  simpl in *. specialize (IH c' Htime Halloc Hc').
  destruct (selector_run _ c' rest) as [c'' rs]. simpl in *.
  f_equal; [exact Hr|exact IH].
Qed.

(** X9. Memoisation by [computedWith] is transparent: when [compute] gives, on
    dependency outputs that the equality function ([shallowEqual] unless
    the options name another) does not tell apart from earlier ones, the
    value it gave on the earlier ones, every call of the selector, in any
    sequence of calls made in the course of time, returns [compute] applied
    to the dependency outputs of the state it is called on, whether
    [compute] was invoked or the cached value was returned. *)
Theorem computedWith_is_transparent deps compute equals inputs :
  respects (default shallowEqual equals) compute →
  in_time inputs → deps_allocated deps inputs →
  (selector_run (computedWith_call deps compute equals) derived_init inputs).2.*1
  = (λ '(h, state), compute h ((λ dep : Selector, dep h state) <$> deps)) <$> inputs.
Proof.
  intros Hresp Htime Halloc. apply computedWith_run_sound; try done.
  split_and!; simpl; [by left|by left|done].
Qed.

(** Reading a field of the first dependency output respects [shallowEqual]. *)
Lemma name_of_respects : respects shallowEqual name_of.
Proof.
  intros h h' dv dv' Hext Halloc Hsame. unfold name_of.
  destruct Hsame as [|x y l l' Hxy _]; simpl.
  - done.
  - apply Forall_cons in Halloc as [Hy _].
    by rewrite (shallowEqual_own_props _ _ _ Hxy), (own_props_extends _ _ _ Hext Hy).
Qed.

Lemma computedWith_is_transparent_witness :
  let run := selector_run (computedWith_call [field "user"] name_of None) derived_init
               [(user_heap, VRef 1%nat); (user_heap1, VRef 4%nat);
                (user_heap2, VRef 6%nat)] in
  run.2.*1 = [VStr "ann"; VStr "ann"; VStr "bob"]
  ∧ run.2.*2 = [true; false; true].
Proof.
  split; [|reflexivity].
  apply (computedWith_is_transparent [field "user"] name_of None
           [(user_heap, VRef 1%nat); (user_heap1, VRef 4%nat); (user_heap2, VRef 6%nat)]).
  - exact name_of_respects.
  - cbn [in_time]. split_and!; try done; repeat constructor; cbn [fst];
      match goal with |- extends ?a ?b => exists (drop (length a) b); reflexivity end.
  - repeat constructor; by eexists.
Defined.

(** X10. The selector returned by [createSelector] calls the free name
    [selector], never its argument [selectorFn].  Where nothing binds that
    name, a call on the initial cache throws a [ReferenceError] and leaves
    the cache as it was, so every call throws.  Where the name denotes a
    function, the selector never recomputes: once a call on a truthy state
    has produced a defined result, every later call returns that first
    result, whatever state it is called on and whatever the [deps] of the
    options are. *)
Theorem createSelector_keeps_first_result selectorFn equalityFn deps h0 s0 h state :
  createSelector_call None selectorFn equalityFn deps (createSelector_init deps) h state
  = (createSelector_init deps, Throw (ReferenceError "selector"))
  ∧ ∀ f, truthy s0 = true → defined (f h0 s0) = true →
      let first := createSelector_call (Some f) selectorFn equalityFn deps
                     (createSelector_init deps) h0 s0 in
      first.2 = Normal (f h0 s0)
      ∧ createSelector_call (Some f) selectorFn equalityFn deps first.1 h state
        = (first.1, Normal (f h0 s0)).
Proof.
  split; [done|]. intros f Ht Hd first.
  assert (Hfirst : first = ({| lastState := s0; lastResult := f h0 s0; lastDeps := deps |},
                            Normal (f h0 s0))) by done.
  rewrite Hfirst. split; [done|]. by apply createSelector_never_recomputes.
Qed.

Lemma createSelector_keeps_first_result_witness :
  (createSelector_call (Some (field "a")) (field "a") shallowEqual []
     (createSelector_call (Some (field "a")) (field "a") shallowEqual []
        (createSelector_init []) ab_heap (VRef 0%nat)).1
     (ab_heap ++ [ {["a" := VNum 5]} ]) (VRef 2%nat)).2
  = Normal (VNum 1).
Proof.
  destruct (createSelector_keeps_first_result (field "a") shallowEqual []
              ab_heap (VRef 0%nat) (ab_heap ++ [ {["a" := VNum 5]} ]) (VRef 2%nat))
    as [_ Hlater].
  destruct (Hlater (field "a") eq_refl eq_refl) as [_ Hsame].
  exact (f_equal snd Hsame).
Defined.

(** ** More on the snapshot manager *)

Lemma kept_is_take (m : SnapshotManager) :
  cursor_valid m →
  (if currentIndex m <? Z.of_nat (length (snapshots m)) - 1
   then slice0 (snapshots m) (currentIndex m + 1) else snapshots m)
  = take (Z.to_nat (currentIndex m + 1)) (snapshots m).
Proof.
  intros [Hc _]. destruct (snapshots m) as [|s0 rest] eqn:Es.
  - unfold slice0. rewrite !take_nil. by destruct (_ <? _).
  - specialize (Hc ltac:(done)).
    destruct (Z.ltb_spec (currentIndex m) (Z.of_nat (length (s0 :: rest)) - 1)).
    + unfold slice0. rewrite (proj2 (Z.ltb_ge _ 0)) by lia. f_equal. lia.
    + rewrite take_ge; [done|lia].
Qed.

Lemma cursor_stays_valid_invariant funs now max h st ops :
  1 ≤ max → cursor_valid (w_manager (run funs (attach now max h st) ops)).
Proof.
  intros Hmax. apply run_valid.
  - unfold attach, createSnapshotManager.
    pose proof (takeSnapshot_max now (Some "Initial state") h st
      {| snapshots := []; currentIndex := -1; maxSnapshots := max |}) as Hm.
    destruct (takeSnapshot _ _ h st _) as [h' m']. simpl in *. lia.
  - unfold attach, createSnapshotManager.
    pose proof (takeSnapshot_valid now (Some "Initial state") h st
      {| snapshots := []; currentIndex := -1; maxSnapshots := max |}) as Hv.
    destruct (takeSnapshot _ _ h st _) as [h' m']. simpl in *.
    apply Hv; simpl; lia.
Qed.

(** X11. [takeSnapshot] keeps the snapshots up to the cursor, discards those
    after it, appends the new one and, if that exceeds [maxSnapshots],
    drops the oldest; afterwards the new snapshot is the last one, the
    cursor is on it, and [canRedo()] is false. *)
Theorem takeSnapshot_discards_redo_branch t d (h : heap) st m :
  1 ≤ maxSnapshots m → cursor_valid m →
  let m' := (takeSnapshot t d h st m).2 in
  let kept := take (Z.to_nat (currentIndex m + 1)) (snapshots m) in
  let new := {| snap_state := length h; timestamp := t; description := d |} in
  canRedo m' = false
  ∧ currentIndex m' = Z.of_nat (length (snapshots m')) - 1
  ∧ last (snapshots m') = Some new
  ∧ snapshots m'
    = (if maxSnapshots m <? Z.of_nat (length kept) + 1
       then drop 1 (kept ++ [new]) else kept ++ [new])
  ∧ (takeSnapshot t d h st m).1 !! length h = Some (own_props h (VRef (getState st))).
Proof.
  intros Hmax Hv m' kept new.
  destruct (takeSnapshot_shape t d h st m Hmax) as [pre E].
  assert (Hm' : m' = {| snapshots := pre ++ [new]; currentIndex := Z.of_nat (length pre);
                        maxSnapshots := maxSnapshots m |}) by (subst m'; by rewrite E).
  split_and!.
  - rewrite Hm'. unfold canRedo. simpl. rewrite length_app. simpl.
    apply Z.ltb_ge. lia.
  - rewrite Hm'. simpl. rewrite length_app. simpl. lia.
  - rewrite Hm'. simpl. by rewrite last_snoc.
  - subst m'. unfold takeSnapshot. simpl. rewrite (kept_is_take m Hv). fold kept.
    rewrite length_app. simpl.
    replace (Z.of_nat (length kept + 1)) with (Z.of_nat (length kept) + 1) by lia.
    by case_match.
  - rewrite E. simpl. by rewrite lookup_app_r, Nat.sub_diag.
Qed.

Lemma takeSnapshot_discards_redo_branch_witness :
  canRedo (w_manager (run quiet (attach 0 5 sample_heap sample_store)
    [TakeSnapshot 1 None; TakeSnapshot 2 None; Undo; Undo; TakeSnapshot 3 None]))
  = false.
Proof.
  pose (w := run quiet (attach 0 5 sample_heap sample_store)
               [TakeSnapshot 1 None; TakeSnapshot 2 None; Undo; Undo]).
  assert (Hv : cursor_valid (w_manager w)).
  { apply (cursor_stays_valid_invariant quiet 0 5 sample_heap sample_store
             [TakeSnapshot 1 None; TakeSnapshot 2 None; Undo; Undo]). lia. }
  destruct (takeSnapshot_discards_redo_branch 3 None (w_heap w) (w_store w)
              (w_manager w) ltac:(vm_compute; discriminate) Hv) as [Hredo _].
  exact Hredo.
Defined.

(** X12. Time travel outside the history does nothing: [applySnapshot] with an
    index that is negative or not below the number of snapshots, [undo()]
    with the cursor at 0 (or on an empty history), and [redo()] with the
    cursor on the last snapshot call no [setState] and leave the store, the
    heap and the manager as they were. *)
Theorem time_travel_out_of_range_is_ignored funs w i :
  let m := w_manager w in
  let len := Z.of_nat (length (snapshots m)) in
  (i < 0 ∨ len ≤ i → step funs w (ApplySnapshot i) = w)
  ∧ (currentIndex m ≤ 0 → step funs w Undo = w)
  ∧ (len - 1 ≤ currentIndex m → step funs w Redo = w).
Proof.
  intros m len. destruct w as [h st mgr]. simpl in *. subst m len.
  unfold undo, redo, canUndo, canRedo, applySnapshot, settled. split_and!.
  - intros [Hi|Hi].
    + by rewrite (proj2 (Z.leb_gt 0 i)) by lia.
    + rewrite (proj2 (Z.ltb_ge i _)) by lia. by rewrite andb_false_r.
  - intros Hc. by rewrite (proj2 (Z.ltb_ge 0 _)) by lia.
  - intros Hc. by rewrite (proj2 (Z.ltb_ge (currentIndex mgr) _)) by lia.
Qed.

Lemma time_travel_out_of_range_is_ignored_witness :
  let w := attach 0 5 sample_heap sample_store in
  step quiet w (ApplySnapshot 1) = w ∧ step quiet w Undo = w ∧ step quiet w Redo = w.
Proof.
  intros w.
  destruct (time_travel_out_of_range_is_ignored quiet w 1) as (Ha & Hu & Hr).
  split_and!; [apply Ha; right | apply Hu | apply Hr]; vm_compute; discriminate.
Defined.

Lemma step_ApplySnapshot_shape funs (w : World) i s :
  Forall passthrough (middleware (w_store w)) →
  0 ≤ i → snapshots (w_manager w) !! Z.to_nat i = Some s →
  step funs w (ApplySnapshot i)
  = {| w_heap := w_heap w ++ [own_props (w_heap w) (VRef (state (w_store w)))];
       w_store := {| state := snap_state s; listeners := listeners (w_store w);
                     middleware := middleware (w_store w) |};
       w_manager := {| snapshots := snapshots (w_manager w); currentIndex := i;
                       maxSnapshots := maxSnapshots (w_manager w) |} |}.
Proof.
  intros Hpass Hi Hs. simpl. unfold applySnapshot.
  assert (Hlt := lookup_lt_Some _ _ _ Hs).
  rewrite (proj2 (Z.leb_le 0 i)), (proj2 (Z.ltb_lt i _)) by lia.
  unfold settled. simpl.
  by destruct (setState_restore_passthrough funs (w_heap w) (w_store w)
                 (snapshots (w_manager w)) i s Hs Hpass) as (calls & _ & ->).
Qed.

(** X13. In a store whose middleware leave the proposed state alone,
    [applySnapshot(i)] with [i] in bounds makes [getState()] return the very
    state object of snapshot [i], moves the cursor to [i], and leaves the
    snapshot sequence, the snapshots' captured objects and every other
    object as they were. *)
Theorem applySnapshot_shows_the_snapshot funs (w : World) i s :
  Forall passthrough (middleware (w_store w)) →
  0 ≤ i → snapshots (w_manager w) !! Z.to_nat i = Some s →
  let w' := step funs w (ApplySnapshot i) in
  getState (w_store w') = snap_state s
  ∧ currentIndex (w_manager w') = i
  ∧ snapshots (w_manager w') = snapshots (w_manager w)
  ∧ maxSnapshots (w_manager w') = maxSnapshots (w_manager w)
  ∧ listeners (w_store w') = listeners (w_store w)
  ∧ (∀ l o, w_heap w !! l = Some o → w_heap w' !! l = Some o).
Proof.
  intros Hpass Hi Hs w'. subst w'.
  rewrite (step_ApplySnapshot_shape funs w i s Hpass Hi Hs). simpl.
  split_and!; try done. intros l o Hl. by apply lookup_app_l_Some.
Qed.

Lemma applySnapshot_shows_the_snapshot_witness :
  let w := run quiet (attach 0 5 sample_heap sample_store)
             [SetState (UVal (VRef 1%nat)); TakeSnapshot 1 None] in
  getState (w_store (step quiet w (ApplySnapshot 0))) = 2%nat.
Proof.
  intros w.
  apply (applySnapshot_shows_the_snapshot quiet w 0
           {| snap_state := 2%nat; timestamp := 0; description := Some "Initial state" |});
    [constructor | lia | reflexivity].
Defined.

(** X14. With the cursor on a snapshot that has a predecessor, [undo()]
    followed by [redo()] brings the cursor back and leaves [getState()] on
    the state object of the snapshot under the cursor; with a successor,
    [redo()] followed by [undo()] does the same (store middleware leaving
    the proposed state alone). *)
Theorem undo_and_redo_are_inverse funs (w : World) s :
  Forall passthrough (middleware (w_store w)) →
  snapshots (w_manager w) !! Z.to_nat (currentIndex (w_manager w)) = Some s →
  0 ≤ currentIndex (w_manager w) →
  (canUndo (w_manager w) = true →
   w_manager (run funs w [Undo; Redo]) = w_manager w
   ∧ getState (w_store (run funs w [Undo; Redo])) = snap_state s)
  ∧ (canRedo (w_manager w) = true →
     w_manager (run funs w [Redo; Undo]) = w_manager w
     ∧ getState (w_store (run funs w [Redo; Undo])) = snap_state s).
Proof.
  intros Hpass Hs Hc0. destruct w as [h st [snaps c max]]. simpl in Hpass, Hs, Hc0.
  assert (Hlt := lookup_lt_Some _ _ _ Hs).
  unfold run. cbn [foldl w_manager w_store]. split.
  - intros Hu. unfold canUndo in Hu. simpl in Hu. apply Z.ltb_lt in Hu.
    destruct (lookup_lt_is_Some_2 snaps (Z.to_nat (c - 1))) as [s' Hs']; [lia|].
    assert (E1 : step funs {| w_heap := h; w_store := st;
                   w_manager := {| snapshots := snaps; currentIndex := c;
                                   maxSnapshots := max |} |} Undo
                 = step funs {| w_heap := h; w_store := st;
                     w_manager := {| snapshots := snaps; currentIndex := c;
                                     maxSnapshots := max |} |} (ApplySnapshot (c - 1))).
    { simpl. unfold undo, canUndo. simpl. by rewrite (proj2 (Z.ltb_lt 0 c)). }
    rewrite E1, (step_ApplySnapshot_shape funs _ (c - 1) s') by (simpl; done || lia).
    cbn [w_heap w_store w_manager state listeners middleware snapshots currentIndex
         maxSnapshots].
    match goal with |- context [step funs ?w1 Redo] =>
      assert (E2 : step funs w1 Redo = step funs w1 (ApplySnapshot c));
        [|rewrite E2, (step_ApplySnapshot_shape funs w1 c s) by (simpl; done || lia)]
    end.
    { simpl. unfold redo, canRedo. simpl.
      rewrite (proj2 (Z.ltb_lt (c - 1) _)) by lia.
      by replace (c - 1 + 1) with c by lia. }
    simpl. done.
  - intros Hr. unfold canRedo in Hr. simpl in Hr. apply Z.ltb_lt in Hr.
    destruct (lookup_lt_is_Some_2 snaps (Z.to_nat (c + 1))) as [s' Hs']; [lia|].
    assert (E1 : step funs {| w_heap := h; w_store := st;
                   w_manager := {| snapshots := snaps; currentIndex := c;
                                   maxSnapshots := max |} |} Redo
                 = step funs {| w_heap := h; w_store := st;
                     w_manager := {| snapshots := snaps; currentIndex := c;
                                     maxSnapshots := max |} |} (ApplySnapshot (c + 1))).
    { simpl. unfold redo, canRedo. simpl. by rewrite (proj2 (Z.ltb_lt c _)). }
    rewrite E1, (step_ApplySnapshot_shape funs _ (c + 1) s') by (simpl; done || lia).
    cbn [w_heap w_store w_manager state listeners middleware snapshots currentIndex
         maxSnapshots].
    match goal with |- context [step funs ?w1 Undo] =>
      assert (E2 : step funs w1 Undo = step funs w1 (ApplySnapshot c));
        [|rewrite E2, (step_ApplySnapshot_shape funs w1 c s) by (simpl; done || lia)]
    end.
    { simpl. unfold undo, canUndo. simpl.
      rewrite (proj2 (Z.ltb_lt 0 (c + 1))) by lia.
      by replace (c + 1 - 1) with c by lia. }
    simpl. done.
Qed.

Lemma undo_and_redo_are_inverse_witness :
  let w := run quiet (attach 0 5 sample_heap sample_store)
             [SetState (UVal (VRef 1%nat)); TakeSnapshot 1 None] in
  w_manager (run quiet w [Undo; Redo]) = w_manager w
  ∧ getState (w_store (run quiet w [Undo; Redo])) = 5%nat.
Proof.
  intros w.
  destruct (undo_and_redo_are_inverse quiet w
              {| snap_state := 5%nat; timestamp := 1; description := None |})
    as [Hundo _]; [constructor | reflexivity | vm_compute; discriminate |].
  apply Hundo. reflexivity.
Defined.

Lemma step_keeps_history_empty funs w op :
  maxSnapshots (w_manager w) ≤ 0 →
  snapshots (w_manager w) = [] → currentIndex (w_manager w) = -1 →
  snapshots (w_manager (step funs w op)) = []
  ∧ currentIndex (w_manager (step funs w op)) = -1
  ∧ maxSnapshots (w_manager (step funs w op)) = maxSnapshots (w_manager w).
Proof.
  intros Hmax Hs Hc. destruct w as [h st [snaps c max]]. simpl in *. subst snaps c.
  destruct op as [t d|i| | | |u]; simpl.
  - unfold takeSnapshot. simpl. change (Z.of_nat 1) with 1.
    rewrite (proj2 (Z.ltb_lt max 1)) by lia. by simpl.
  - unfold applySnapshot, settled. simpl. change (Z.of_nat 0) with 0.
    rewrite andb_comm.
    destruct (Z.ltb_spec i 0), (Z.leb_spec 0 i); simpl; try done. lia.
  - done.
  - done.
  - done.
  - done.
Qed.

(** X15. A snapshot manager created with [maxSnapshots ≤ 0] never holds a
    snapshot: after construction and after any sequence of operations its
    history is empty, the cursor is -1, and [canUndo()] and [canRedo()] are
    false. *)
Theorem history_disabled_without_capacity funs now max h st ops :
  max ≤ 0 →
  let m := w_manager (run funs (attach now max h st) ops) in
  snapshots m = [] ∧ currentIndex m = -1 ∧ canUndo m = false ∧ canRedo m = false.
Proof.
  intros Hmax m.
  assert (Hinv : ∀ ops w, maxSnapshots (w_manager w) ≤ 0 →
            snapshots (w_manager w) = [] → currentIndex (w_manager w) = -1 →
            snapshots (w_manager (run funs w ops)) = []
            ∧ currentIndex (w_manager (run funs w ops)) = -1).
  { clear. intros ops. unfold run.
    induction ops as [|op ops IH]; intros w Hmax Hs Hc; simpl; [done|].
    destruct (step_keeps_history_empty funs w op Hmax Hs Hc) as (Hs' & Hc' & Hm').
    apply IH; [lia|done|done]. }
  destruct (Hinv ops (attach now max h st)) as [Hs Hc].
  - unfold attach, createSnapshotManager, takeSnapshot. simpl.
    change (Z.of_nat 1) with 1. by rewrite (proj2 (Z.ltb_lt max 1)) by lia.
  - unfold attach, createSnapshotManager, takeSnapshot. simpl.
    change (Z.of_nat 1) with 1. by rewrite (proj2 (Z.ltb_lt max 1)) by lia.
  - unfold attach, createSnapshotManager, takeSnapshot. simpl.
    change (Z.of_nat 1) with 1. by rewrite (proj2 (Z.ltb_lt max 1)) by lia.
  - fold m in Hs, Hc. unfold canUndo, canRedo. rewrite Hs, Hc. by split_and!.
Qed.

Lemma history_disabled_without_capacity_witness :
  snapshots (w_manager (run quiet (attach 0 0 sample_heap sample_store)
    [TakeSnapshot 1 None; SetState (UVal (VRef 1%nat)); TakeSnapshot 2 None; Undo])) = [].
Proof.
  apply (history_disabled_without_capacity quiet 0 0 sample_heap sample_store
    [TakeSnapshot 1 None; SetState (UVal (VRef 1%nat)); TakeSnapshot 2 None; Undo]).
  lia.
Defined.

(** The history holds the timestamps [ts] taken so far, cut to the newest
    [maxSnapshots], and the cursor is on the last snapshot. *)
Lemma take_at_end_keeps_newest t d (h : heap) st m (ts : list Z) :
  1 ≤ maxSnapshots m → ts ≠ [] →
  timestamp <$> snapshots m = drop (length ts - Z.to_nat (maxSnapshots m)) ts →
  currentIndex m = Z.of_nat (length (snapshots m)) - 1 →
  let m' := (takeSnapshot t d h st m).2 in
  timestamp <$> snapshots m'
  = drop (length (ts ++ [t]) - Z.to_nat (maxSnapshots m)) (ts ++ [t])
  ∧ currentIndex m' = Z.of_nat (length (snapshots m')) - 1
  ∧ maxSnapshots m' = maxSnapshots m.
Proof.
  intros Hmax Hne Hts Hc m'.
  assert (Hlen : length (snapshots m)
                 = (length ts - (length ts - Z.to_nat (maxSnapshots m)))%nat).
  { by rewrite <- (length_fmap timestamp), Hts, length_drop. }
  subst m'. unfold takeSnapshot. simpl.
  rewrite (proj2 (Z.ltb_ge (currentIndex m) _)) by lia.
  rewrite !length_app. simpl.
  destruct (Z.ltb_spec (maxSnapshots m) (Z.of_nat (length (snapshots m) + 1))); simpl.
  - split_and!; [|rewrite length_drop, length_app; simpl; lia|done].
    rewrite fmap_drop, fmap_app, Hts. simpl.
    rewrite <- drop_app_le by lia. rewrite drop_drop. f_equal. lia.
  - split_and!; [|rewrite length_app; simpl; lia|done].
    rewrite fmap_app, Hts. simpl.
    replace (length ts - Z.to_nat (maxSnapshots m))%nat with 0%nat by lia.
    replace (length ts + 1 - Z.to_nat (maxSnapshots m))%nat with 0%nat by lia.
    by rewrite !drop_0.
Qed.

Lemma run_keeps_newest funs ops w (ts : list Z) :
  records_only ops →
  1 ≤ maxSnapshots (w_manager w) → ts ≠ [] →
  timestamp <$> snapshots (w_manager w)
    = drop (length ts - Z.to_nat (maxSnapshots (w_manager w))) ts →
  currentIndex (w_manager w) = Z.of_nat (length (snapshots (w_manager w))) - 1 →
  timestamp <$> snapshots (w_manager (run funs w ops))
  = drop (length (ts ++ taken ops) - Z.to_nat (maxSnapshots (w_manager w)))
      (ts ++ taken ops).
Proof.
  unfold run, records_only. intros Hops. revert w ts.
  induction Hops as [|op ops Hop _ IH]; intros w ts Hmax Hne Hts Hc.
  - simpl. by rewrite app_nil_r.
  - destruct op as [t d|i| | | |u]; try done.
    + cbn [foldl]. rewrite step_TakeSnapshot.
      destruct (take_at_end_keeps_newest t d (w_heap w) (w_store w) (w_manager w) ts
                  Hmax Hne Hts Hc) as (Hts' & Hc' & Hm').
      rewrite (IH _ (ts ++ [t])); cbn [w_manager]; rewrite ?Hm';
        [|done|by destruct ts|done|done].
      unfold taken. simpl. by rewrite <- app_assoc.
    + cbn [foldl]. rewrite step_SetState.
      rewrite (IH _ ts); cbn [w_manager]; done.
Qed.

(** X16. When snapshots are only taken (between updates of the store, with no
    undo, redo or jump), the history of a manager created with
    [maxSnapshots ≥ 1] holds exactly the newest [maxSnapshots] snapshots
    taken since its creation, oldest first. *)
Theorem history_keeps_the_newest funs now max h st ops :
  1 ≤ max → records_only ops →
  timestamp <$> snapshots (w_manager (run funs (attach now max h st) ops))
  = drop (length (now :: taken ops) - Z.to_nat max) (now :: taken ops).
Proof.
  intros Hmax Hops.
  assert (Hattach : attach now max h st
    = {| w_heap := h ++ [own_props h (VRef (getState st))]; w_store := st;
         w_manager := {| snapshots := [{| snap_state := length h; timestamp := now;
                                          description := Some "Initial state" |}];
                         currentIndex := 0; maxSnapshots := max |} |}).
  { unfold attach, createSnapshotManager, takeSnapshot. simpl.
    change (Z.of_nat 1) with 1. by rewrite (proj2 (Z.ltb_ge max 1)) by lia. }
  rewrite Hattach.
  rewrite (run_keeps_newest funs ops _ [now] Hops); simpl; try done.
  replace (1 - Z.to_nat max)%nat with 0%nat by lia. done.
Qed.

Lemma history_keeps_the_newest_witness :
  timestamp <$> snapshots (w_manager (run quiet (attach 10 2 sample_heap sample_store)
    [TakeSnapshot 11 None; SetState (UVal (VRef 1%nat)); TakeSnapshot 12 None]))
  = [11; 12].
Proof.
  apply (history_keeps_the_newest quiet 10 2 sample_heap sample_store
    [TakeSnapshot 11 None; SetState (UVal (VRef 1%nat)); TakeSnapshot 12 None]);
    [lia | by repeat constructor].
Defined.

(** ** Slices *)

Lemma setState_commit funs h st u :
  setState funs h st u
  = commit funs st (length h) (candidate (h ++ [own_props h (VRef (state st))]) st u).
Proof. reflexivity. Qed.

Lemma commit_passthrough funs st p (h2 : heap) n :
  Forall passthrough (middleware st) →
  ∃ calls, length calls = length (middleware st) ∧
    commit funs st p (h2, Normal n) =
    {| o_heap := h2;
       o_store := {| state := n; listeners := listeners st;
                     middleware := middleware st |};
       o_prev := p; o_committed := true; o_calls := calls;
       o_notified := (notify funs h2 (listeners st) n p).1;
       o_thrown := (notify funs h2 (listeners st) n p).2 |}.
Proof.
  intros Hpass. unfold commit. rewrite pipeline_guard. unfold applyMiddleware.
  destruct (applyMiddleware_from_passthrough 0 (middleware st) h2 n p Hpass)
    as (calls & Hrun & Hlen).
  rewrite Hrun. exists calls. split; [done|]. simpl.
  by destruct (notify funs h2 (listeners st) n p).
Qed.

Lemma lookup_snoc (h : heap) (o : obj) : (h ++ [o]) !! length h = Some o.
Proof. by apply list_lookup_middle. Qed.

Lemma lookup_snoc_S (h : heap) (o1 o2 : obj) :
  ((h ++ [o1]) ++ [o2]) !! S (length h) = Some o2.
Proof. apply list_lookup_middle. rewrite length_app. simpl. lia. Qed.

Lemma lookup_snoc_SS (h : heap) (o1 o2 o3 : obj) :
  (((h ++ [o1]) ++ [o2]) ++ [o3]) !! S (S (length h)) = Some o3.
Proof. apply list_lookup_middle. rewrite !length_app. simpl. lia. Qed.

(** What [setSlice] with a non-function update leaves behind, allocation by
    allocation. *)
Lemma setSlice_value_passthrough funs (h : heap) st path v (s : obj) :
  h !! state st = Some s →
  Forall passthrough (middleware st) →
  let h1 := h ++ [s] in
  let h2 := h1 ++ [spread2 h1 (get s path) v] in
  let h3 := h2 ++ [<[path := VRef (S (length h))]> s] in
  ∃ calls,
    setSlice funs path (SVal v) h st =
    {| o_heap := h3;
       o_store := {| state := S (S (length h)); listeners := listeners st;
                     middleware := middleware st |};
       o_prev := length h; o_committed := true; o_calls := calls;
       o_notified := (notify funs h3 (listeners st) (S (S (length h))) (length h)).1;
       o_thrown := (notify funs h3 (listeners st) (S (S (length h))) (length h)).2 |}.
Proof.
  intros Hs Hpass h1 h2 h3. unfold setSlice, slice_recipe, merge_slice, alloc.
  cbn [own_props]. rewrite Hs. cbn [default]. rewrite (lookup_app_l_Some _ _ _ _ Hs).
  cbn [default]. rewrite !length_app. cbn [length]. rewrite !Nat.add_1_r.
  unfold id.
  match goal with |- context [commit funs st ?p (?h', Normal ?n)] =>
    destruct (commit_passthrough funs st p h' n Hpass) as (calls & _ & ->)
  end.
  by exists calls.
Qed.

(** X17. In a store whose middleware leave the proposed state alone,
    [createSlice(store, path).setSlice(v)] with a non-function [v] commits a
    copy of the state whose field [path] holds a new object
    [{ ...state[path], ...v }] (the properties of [v] alone when the field
    was missing or held [null], a boolean or a number), every other field
    keeps its value, and the previous state object is left as it was. *)
Theorem setSlice_merges_into_the_slice funs (h : heap) st path v (s : obj) :
  h !! getState st = Some s →
  allocated h v → allocated h (get s path) →
  Forall passthrough (middleware st) →
  let out := setSlice funs path (SVal v) h st in
  ∃ merged : loc,
    o_committed out = true
    ∧ o_heap out !! getState (o_store out) = Some (<[path := VRef merged]> s)
    ∧ o_heap out !! merged = Some (spread2 h (getSlice path h st) v)
    ∧ h !! merged = None
    ∧ (∀ q, q ≠ path → getSlice q (o_heap out) (o_store out) = getSlice q h st)
    ∧ o_heap out !! getState st = Some s.
Proof.
  intros Hs Hv Hcur Hpass out. subst out. unfold getState in *.
  destruct (setSlice_value_passthrough funs h st path v s Hs Hpass) as (calls & ->).
  exists (S (length h)). cbn [o_committed o_heap o_store state].
  split_and!.
  - done.
  - apply lookup_snoc_SS.
  - apply lookup_app_l_Some. rewrite lookup_snoc_S. f_equal.
    unfold spread2, getSlice, getState. simpl. rewrite Hs. simpl.
    by rewrite !own_props_app.
  - apply lookup_ge_None. lia.
  - intros q Hq. unfold getSlice, getState. simpl.
    rewrite lookup_snoc_SS, Hs. simpl. unfold get.
    by rewrite lookup_insert_ne.
  - by do 3 apply lookup_app_l_Some.
Qed.

Lemma setSlice_merges_into_the_slice_witness :
  let out := setSlice quiet "user" (SVal (VRef 2%nat)) user_heap user_store in
  ∃ merged : loc,
    o_committed out = true
    ∧ o_heap out !! getState (o_store out)
      = Some (<["user" := VRef merged]> {["user" := VRef 0%nat; "count" := VNum 0]})
    ∧ o_heap out !! merged
      = Some (spread2 user_heap (getSlice "user" user_heap user_store) (VRef 2%nat))
    ∧ user_heap !! merged = None
    ∧ (∀ q, q ≠ "user" →
         getSlice q (o_heap out) (o_store out) = getSlice q user_heap user_store)
    ∧ o_heap out !! getState user_store
      = Some {["user" := VRef 0%nat; "count" := VNum 0]}.
Proof.
  apply (setSlice_merges_into_the_slice quiet user_heap user_store "user" (VRef 2%nat)).
  - reflexivity.
  - by eexists.
  - by eexists.
  - constructor; [|constructor]. intros h n p. by right.
Defined.

(** X18. What [createSlice(store, path).setSlice(f)] makes of a function [f],
    in a store whose middleware leave the proposed state alone (immer's
    [produce] as modelled): when [f] returns a value other than [undefined]
    the call is the one with that value as the update; when it returns an
    object it has just built, the object's properties are merged into the
    slice; when it writes to the draft of an object slice, the slice gets
    the contents the writes make of the previous ones, in a new slice
    object and a new state object as soon as one write changes something,
    and with the very same state object committed when every write stores
    the value the field already holds, while the other fields of the state
    keep their values and the previous state and slice objects keep their
    properties; when it does nothing (or returns [undefined]) the very same
    state object is committed; when it throws, nothing is committed, no
    middleware runs and nobody is notified. *)
Theorem setSlice_function_updater funs (h : heap) st path f (s : obj) :
  h !! getState st = Some s →
  allocated h (get s path) →
  Forall passthrough (middleware st) →
  let out := setSlice funs path (SFun f) h st in
  match f (h ++ [s]) (get s path) with
  | SUntouched => getState (o_store out) = getState st ∧ o_committed out = true
  | SMutated writes =>
    match get s path with
    | VRef c =>
      let co := own_props h (VRef c) in
      o_committed out = true
      ∧ o_heap out !! getState st = Some s
      ∧ o_heap out !! c = h !! c
      ∧ (getState (o_store out) = getState st ↔ Forall (changes_nothing co) writes)
      ∧ ∃ slice' : loc,
          getSlice path (o_heap out) (o_store out) = VRef slice'
          ∧ o_heap out !! slice' = Some (written co writes)
          ∧ (slice' = c ↔ Forall (changes_nothing co) writes)
          ∧ (∀ q, q ≠ path →
               getSlice q (o_heap out) (o_store out) = getSlice q h st)
    | _ => getState (o_store out) = getState st ∧ o_committed out = true
    end
  | SReturn result =>
    if bool_decide (result = VUndef)
    then getState (o_store out) = getState st ∧ o_committed out = true
    else out = setSlice funs path (SVal result) h st
  | SFresh o =>
    ∃ merged : loc,
      o_heap out !! getState (o_store out) = Some (<[path := VRef merged]> s)
      ∧ o_heap out !! merged = Some (o ∪ own_props h (get s path))
      ∧ o_heap out !! getState st = Some s
  | SThrow e =>
    o_thrown out = Some e ∧ o_store out = st
    ∧ o_notified out = [] ∧ o_calls out = []
  end.
Proof.
  intros Hs Hcur Hpass out. subst out. unfold getState in *.
  assert (Hlt := lookup_lt_Some _ _ _ Hs).
  unfold setSlice, slice_recipe, alloc, getSlice, getState.
  cbn [own_props]. rewrite Hs. cbn [default]. rewrite (lookup_app_l_Some _ _ _ _ Hs).
  cbn [default]. unfold id.
  destruct (f (h ++ [s]) (get s path)) as [|ws|result|o|e].
  - destruct (commit_passthrough funs st (length h) (h ++ [s]) (state st) Hpass)
      as (calls & _ & ->). done.
  - destruct (get s path) as [| | | | |c] eqn:Hc;
      try (destruct (commit_passthrough funs st (length h) (h ++ [s]) (state st) Hpass)
             as (calls & _ & ->); done).
    destruct Hcur as [co Hco]. assert (Hclt := lookup_lt_Some _ _ _ Hco).
    rewrite (lookup_app_l_Some _ _ _ _ Hco), Hco. cbn [default]. unfold id.
    destruct (write_all_spec co ws) as (Hw & Hb & Hm).
    destruct (write_all co ws) as [[] copy]; simpl in Hw, Hb, Hm;
      match goal with |- context [commit funs st ?p (?h', Normal ?n)] =>
        destruct (commit_passthrough funs st p h' n Hpass) as (calls & _ & ->)
      end;
      cbn [o_heap o_store o_committed state].
    + rewrite !length_app. cbn [length]. rewrite !Nat.add_1_r.
      assert (Hnot : ¬ Forall (changes_nothing co) ws) by (intros Hall; by apply Hm in Hall).
      split_and!.
      * done.
      * by do 3 apply lookup_app_l_Some.
      * by do 3 apply lookup_app_l_Some.
      * split; [lia|done].
      * exists (S (length h)). rewrite lookup_snoc_SS. cbn [default]. unfold id.
        split_and!.
        -- unfold get. by rewrite lookup_insert_eq.
        -- rewrite <- Hw. apply lookup_app_l_Some, lookup_snoc_S.
        -- split; [lia|done].
        -- intros q Hq. unfold get. by rewrite lookup_insert_ne.
    + assert (Hall : Forall (changes_nothing co) ws) by by apply Hm.
      split_and!.
      * done.
      * by apply lookup_app_l_Some.
      * by apply lookup_app_l_Some.
      * done.
      * exists c. rewrite (lookup_app_l_Some _ _ _ _ Hs). cbn [default]. unfold id.
        split_and!; [done| |done|done].
        rewrite (Hb eq_refl). by apply lookup_app_l_Some.
  - case_bool_decide.
    + destruct (commit_passthrough funs st (length h) (h ++ [s]) (state st) Hpass)
        as (calls & _ & ->). done.
    + done.
  - unfold merge_slice, alloc. cbn [own_props get].
    rewrite (lookup_app_l_Some _ _ _ _ (lookup_app_l_Some _ _ _ _ Hs)).
    cbn [default]. unfold id.
    match goal with |- context [commit funs st ?p (?h', Normal ?n)] =>
      destruct (commit_passthrough funs st p h' n Hpass) as (calls & _ & ->)
    end.
    cbn [o_heap o_store state].
    exists (length ((h ++ [s]) ++ [o])). rewrite !length_app. cbn [length].
    replace (length h + 1 + 1 + 1)%nat with (S (S (S (length h)))) by lia.
    replace (length h + 1 + 1)%nat with (S (S (length h))) by lia.
    split_and!.
    + apply list_lookup_middle. rewrite !length_app. simpl. lia.
    + apply lookup_app_l_Some.
      assert (E : spread2 ((h ++ [s]) ++ [o]) (get s path) (VRef (length h + 1)%nat)
                  = o ∪ own_props h (get s path)).
      { unfold spread2. rewrite <- app_assoc, (own_props_app h _ (get s path)) by done.
        f_equal.
        simpl. rewrite lookup_app_r by lia.
        by replace (length h + 1 - length h)%nat with 1%nat by lia. }
      rewrite E. apply list_lookup_middle. rewrite !length_app. simpl. lia.
    + by do 4 apply lookup_app_l_Some.
  - done.
Qed.

Lemma setSlice_function_updater_witness :
  let s : obj := {["user" := VRef 0%nat; "count" := VNum 0]} in
  let co : obj := own_props user_heap (VRef 0%nat) in
  let writes := [WSet "age" (VNum 30); WSet "age" (VNum 31)] in
  let out := setSlice quiet "user" (SFun (λ _ _, SMutated writes))
               user_heap user_store in
  o_committed out = true
  ∧ o_heap out !! getState user_store = Some s
  ∧ o_heap out !! 0%nat = user_heap !! 0%nat
  ∧ (getState (o_store out) = getState user_store
     ↔ Forall (changes_nothing co) writes)
  ∧ ∃ slice' : loc,
      getSlice "user" (o_heap out) (o_store out) = VRef slice'
      ∧ o_heap out !! slice' = Some (written co writes)
      ∧ (slice' = 0%nat ↔ Forall (changes_nothing co) writes)
      ∧ (∀ q, q ≠ "user" →
           getSlice q (o_heap out) (o_store out) = getSlice q user_heap user_store).
Proof.
  assert (Hpass : Forall passthrough (middleware user_store)).
  { constructor; [|constructor]. intros h n p. by right. }
  exact (setSlice_function_updater quiet user_heap user_store "user"
           (λ _ _, SMutated [WSet "age" (VNum 30); WSet "age" (VNum 31)])
           {["user" := VRef 0%nat; "count" := VNum 0]}
           eq_refl (ex_intro _ _ eq_refl) Hpass).
Defined.

(** X19. A nested slice whose parent field does not hold an object never
    replaces the state, in a store whose middleware leave the proposed
    state alone: [setSlice] ends with a [TypeError] whenever the update is
    not a function or the parent is [undefined] or [null], and otherwise
    with the exception of the function, with a [TypeError], or with a
    commit of the very same state object. *)
Theorem nested_setSlice_needs_an_object_parent funs (h : heap) st parentPath childPath
    updater (s : obj) :
  h !! getState st = Some s →
  (∀ p, get s parentPath ≠ VRef p) →
  Forall passthrough (middleware st) →
  match nested_setSlice funs parentPath childPath updater h st with
  | TypeErrorThrown h' _ => h' !! getState st = Some s
  | Settled out =>
    (∃ f, updater = SFun f)
    ∧ get s parentPath ≠ VUndef ∧ get s parentPath ≠ VNull
    ∧ getState (o_store out) = getState st
    ∧ o_heap out !! getState st = Some s
  end.
Proof.
  intros Hs Hparent Hpass. unfold getState in *.
  unfold nested_setSlice, nested_recipe, merge_nested, alloc.
  cbn [own_props]. rewrite Hs. cbn [default].
  rewrite (lookup_app_l_Some _ _ _ _ Hs). cbn [default]. unfold id.
  assert (Hkeep : (h ++ [s]) !! state st = Some s) by by apply lookup_app_l_Some.
  assert (Hsame : ∀ hx, hx !! state st = Some s →
    match Settled (commit funs st (length h) (hx, Normal (state st))) with
    | TypeErrorThrown h' _ => h' !! state st = Some s
    | Settled out =>
      get s parentPath ≠ VUndef → get s parentPath ≠ VNull →
      get s parentPath ≠ VUndef ∧ get s parentPath ≠ VNull
      ∧ state (o_store out) = state st ∧ o_heap out !! state st = Some s
    end).
  { intros hx Hx.
    destruct (commit_passthrough funs st (length h) hx (state st) Hpass)
      as (calls & _ & ->). done. }
  destruct updater as [f|v].
  - destruct (get s parentPath) as [| |b|n|str|p] eqn:Hp; cbn [read];
      try done; try (by destruct (Hparent p));
      (match goal with |- context [f ?hh ?cur] =>
         destruct (f hh cur) as [|d|result|o|e] end);
      try (split; [by eexists|]; by apply Hsame);
      try (case_bool_decide; [split; [by eexists|]; by apply Hsame|]);
      try (rewrite ?(lookup_app_l_Some _ _ _ _ Hkeep); cbn [default]; unfold id;
           rewrite ?Hp; by repeat apply lookup_app_l_Some);
      try (destruct (get _ _); split; [by eexists|]; by apply Hsame);
      by split_and!; [eexists| | | |].
  - destruct (get s parentPath) as [| |b|n|str|p] eqn:Hp; cbn [read];
      try done; try (by destruct (Hparent p));
      by apply lookup_app_l_Some.
Qed.

Lemma nested_setSlice_needs_an_object_parent_witness :
  let s : obj := {["user" := VRef 0%nat; "count" := VNum 0]} in
  match nested_setSlice quiet "count" "step" (SVal (VRef 2%nat)) user_heap user_store with
  | TypeErrorThrown h' _ => h' !! getState user_store = Some s
  | Settled out =>
    (∃ f, SVal (VRef 2%nat) = SFun f)
    ∧ get s "count" ≠ VUndef ∧ get s "count" ≠ VNull
    ∧ getState (o_store out) = getState user_store
    ∧ o_heap out !! getState user_store = Some s
  end.
Proof.
  apply (nested_setSlice_needs_an_object_parent quiet user_heap user_store
           "count" "step" (SVal (VRef 2%nat))
           {["user" := VRef 0%nat; "count" := VNum 0]}).
  - reflexivity.
  - intros p. vm_compute. discriminate.
  - constructor; [|constructor]. intros h n p. by right.
Defined.

(** X20. In a store whose middleware leave the proposed state alone,
    [createSlice(store, parentPath).slice(childPath).setSlice(v)] with a
    non-function [v], on a parent field that holds an object, commits a
    copy of the state whose parent field holds a copy of the parent, whose
    child field holds a new object [{ ...child, ...v }]; the other fields of
    the state and of the parent keep their values, [getSlice()] returns the
    new object, and the previous state and parent objects are left as they
    were. *)
Theorem nested_setSlice_merges_the_child funs (h : heap) st parentPath childPath v
    (s po : obj) (p : loc) :
  h !! getState st = Some s →
  s !! parentPath = Some (VRef p) →
  h !! p = Some po →
  allocated h v → allocated h (get po childPath) →
  Forall passthrough (middleware st) →
  ∃ out (parent' merged : loc),
    nested_setSlice funs parentPath childPath (SVal v) h st = Settled out
    ∧ o_committed out = true
    ∧ o_heap out !! getState (o_store out) = Some (<[parentPath := VRef parent']> s)
    ∧ o_heap out !! parent' = Some (<[childPath := VRef merged]> po)
    ∧ o_heap out !! merged = Some (spread2 h (get po childPath) v)
    ∧ nested_getSlice parentPath childPath (o_heap out) (o_store out) = Some (VRef merged)
    ∧ o_heap out !! getState st = Some s
    ∧ o_heap out !! p = Some po.
Proof.
  intros Hs Hp Hpo Hv Hcur Hpass. unfold getState in *.
  assert (Hget : get s parentPath = VRef p) by (unfold get; by rewrite Hp).
  unfold nested_setSlice, nested_recipe, merge_nested, alloc.
  cbn [own_props]. rewrite Hs. cbn [default].
  rewrite (lookup_app_l_Some _ _ _ _ Hs). cbn [default]. unfold id.
  rewrite Hget. cbn [read own_props].
  rewrite (lookup_app_l_Some _ _ _ _ Hpo). cbn [default]. unfold id.
  match goal with |- context [commit funs st ?q (?h', Normal ?n)] =>
    destruct (commit_passthrough funs st q h' n Hpass) as (calls & _ & ->)
  end.
  rewrite !length_app. cbn [length].
  replace (length h + 1 + 1 + 1)%nat with (S (S (S (length h)))) by lia.
  replace (length h + 1 + 1)%nat with (S (S (length h))) by lia.
  replace (length h + 1)%nat with (S (length h)) by lia.
  eexists _, (S (S (length h))), (S (length h)).
  split; [reflexivity|]. cbn [o_committed o_heap o_store state].
  assert (H3 : ∀ (a b c : obj),
    ((((h ++ [s]) ++ [a]) ++ [b]) ++ [c]) !! S (S (S (length h))) = Some c).
  { intros a b c. apply list_lookup_middle. rewrite !length_app. simpl. lia. }
  split_and!.
  - done.
  - apply H3.
  - apply lookup_app_l_Some, lookup_snoc_SS.
  - do 2 apply lookup_app_l_Some. rewrite lookup_snoc_S. f_equal.
    unfold spread2. by rewrite !own_props_app.
  - unfold nested_getSlice, getState. cbn [state own_props].
    rewrite H3. cbn [default]. unfold id, get at 2. rewrite lookup_insert_eq.
    unfold id. cbn [default read own_props].
    rewrite (lookup_app_l_Some _ _ _ _ (lookup_snoc_SS _ _ _ _)). cbn [default].
    unfold id, get. by rewrite lookup_insert_eq.
  - by do 4 apply lookup_app_l_Some.
  - by do 4 apply lookup_app_l_Some.
Qed.

Lemma nested_setSlice_merges_the_child_witness :
  let s : obj := {["user" := VRef 0%nat; "count" := VNum 0]} in
  let po : obj := {["name" := VStr "ann"; "age" := VNum 30]} in
  ∃ out (parent' merged : loc),
    nested_setSlice quiet "user" "address" (SVal (VRef 2%nat)) user_heap user_store
      = Settled out
    ∧ o_committed out = true
    ∧ o_heap out !! getState (o_store out) = Some (<["user" := VRef parent']> s)
    ∧ o_heap out !! parent' = Some (<["address" := VRef merged]> po)
    ∧ o_heap out !! merged = Some (spread2 user_heap (get po "address") (VRef 2%nat))
    ∧ nested_getSlice "user" "address" (o_heap out) (o_store out) = Some (VRef merged)
    ∧ o_heap out !! getState user_store = Some s
    ∧ o_heap out !! 0%nat = Some po.
Proof.
  apply (nested_setSlice_merges_the_child quiet user_heap user_store "user" "address"
           (VRef 2%nat) {["user" := VRef 0%nat; "count" := VNum 0]}
           {["name" := VStr "ann"; "age" := VNum 30]} 0%nat).
  - reflexivity.
  - reflexivity.
  - reflexivity.
  - by eexists.
  - vm_compute. exact I.
  - constructor; [|constructor]. intros h n p. by right.
Defined.
